(** * nuts::math::vector — a fixed-dimension numeric vector

    A shallow embedding of [src/math/vector.h]: the class template
    [vector<T, Dimension>], its conversions, comparisons and arithmetic, and
    the comma initializer [detail::comma_initializer] started by
    [operator<<].

    Objects that the source reaches through [this] or through a reference
    live in a store indexed by addresses, so that identity tests, in-place
    mutation and by-value copies are visible.  [assert] is taken as compiled
    in (no [NDEBUG]) and its failure is an outcome of its own. *)

From Stdlib Require Import ZArith Floats Lia.
From stdpp Require Import gmap list.

(** ** Scalar types

    The template parameter [T] ranges over the arithmetic types.  What the
    source needs from them is given by three interfaces: [static_cast<T>]
    from another arithmetic type, the built-in binary operators with their
    result type [decltype(T op T2)], and the built-in comparisons. *)

Class Convertible (T2 T : Type) := static_cast : T2 → T.

Class Promotes (T T2 R : Type) := {
  plus : T → T2 → R;
  minus : T → T2 → R;
  times : T → T2 → R
}.

Class Compared (T : Type) := {
  less : T → T → bool;
  equal_to : T → T → bool
}.

(** [int]: 32 bits, two's complement.  Arithmetic wraps around, as the
    usual targets compute it. *)
Definition c_int : Type := Z.

Definition wrap_int (z : Z) : c_int :=
  ((z + 2 ^ 31) mod 2 ^ 32 - 2 ^ 31)%Z.

(** [double]: the binary64 floats of the kernel. *)
Definition c_double : Type := float.

Definition double_of_int (z : c_int) : c_double :=
  if (z <? 0)%Z
  then PrimFloat.opp (PrimFloat.of_uint63 (Uint63.of_Z (- z)))
  else PrimFloat.of_uint63 (Uint63.of_Z z).

(** [double] to [int]: the fractional part is dropped.  Where the source
    leaves the conversion undefined, on a NaN, an infinity or a value with
    no [int] next to it towards zero, nothing below rests on what this
    gives. *)
Definition int_of_double (x : c_double) : c_int :=
  match Prim2SF x with
  | S754_finite s m e =>
      let magnitude :=
        if (0 <=? e)%Z then (Z.pos m * 2 ^ e)%Z
        else (Z.pos m / 2 ^ (- e))%Z in
      if s then (- magnitude)%Z else magnitude
  | _ => 0%Z
  end.

(** The three-way comparison of two [double]s neither of which is a NaN. *)
Definition double_compare (x y : c_double) : comparison :=
  match PrimFloat.compare x y with
  | FLt => Lt
  | FGt => Gt
  | FEq | FNotComparable => Eq
  end.

#[export] Instance int_to_int : Convertible c_int c_int := λ z, z.
#[export] Instance double_to_double : Convertible c_double c_double := λ x, x.
#[export] Instance int_to_double : Convertible c_int c_double := double_of_int.
#[export] Instance double_to_int : Convertible c_double c_int := int_of_double.

#[export] Instance int_int : Promotes c_int c_int c_int := {|
  plus a b := wrap_int (a + b);
  minus a b := wrap_int (a - b);
  times a b := wrap_int (a * b)
|}.

#[export] Instance double_double : Promotes c_double c_double c_double := {|
  plus a b := PrimFloat.add a b;
  minus a b := PrimFloat.sub a b;
  times a b := PrimFloat.mul a b
|}.

(** [double op int]: the [int] operand is converted to [double] first. *)
#[export] Instance double_int : Promotes c_double c_int c_double := {|
  plus a b := PrimFloat.add a (double_of_int b);
  minus a b := PrimFloat.sub a (double_of_int b);
  times a b := PrimFloat.mul a (double_of_int b)
|}.

(** [int op double]: the [int] operand is converted to [double] first. *)
#[export] Instance int_double : Promotes c_int c_double c_double := {|
  plus a b := PrimFloat.add (double_of_int a) b;
  minus a b := PrimFloat.sub (double_of_int a) b;
  times a b := PrimFloat.mul (double_of_int a) b
|}.

#[export] Instance int_compared : Compared c_int := {|
  less := Z.ltb;
  equal_to := Z.eqb
|}.

#[export] Instance double_compared : Compared c_double := {|
  less := PrimFloat.ltb;
  equal_to := PrimFloat.eqb
|}.

(** ** Outcomes and the store *)

(** A call returns, stops at a failed [assert], or uses a reference to an
    object that does not exist. *)
Inductive outcome (A : Type) : Type :=
| Returns (a : A)
| AssertionFailed
| Undefined.
Arguments Returns {A} a.
Arguments AssertionFailed {A}.
Arguments Undefined {A}.

Definition exec (S A : Type) : Type := S → outcome (A * S).

#[export] Instance exec_ret {S} : MRet (exec S) := λ A a s, Returns (a, s).

#[export] Instance exec_bind {S} : MBind (exec S) := λ A B k m s,
  match m s with
  | Returns (a, s') => k a s'
  | AssertionFailed => AssertionFailed
  | Undefined => Undefined
  end.

(** [assert(cond)] *)
Definition assert {S} (cond : bool) : exec S () :=
  λ s, if cond then Returns ((), s) else AssertionFailed.

(** The use of a reference that designates no object. *)
Definition undefined {S A} : exec S A := λ _, Undefined.

Definition addr : Type := positive.

(** ** The algorithms of the standard library the source calls

    Iterators into an array are indices into the list of its elements. *)
Section algorithms.
Context {A B C : Type}.

(** [std::transform(first, last, d_first, op)]: writes [op] of every source
    element through the output iterator and returns the advanced output
    iterator.  A write past the end of [dst], undefined in the source, leaves
    the list as it is; the templates' [Dimension2 <= Dimension] rules it
    out. *)
Fixpoint transform (src : list A) (dst : list B) (d_first : nat)
    (op : A → B) : list B * nat :=
  match src with
  | [] => (dst, d_first)
  | x :: src' => transform src' (<[d_first := op x]> dst) (S d_first) op
  end.

(** [std::transform(first1, last1, first2, d_first, op)].  The second range
    is as long as the first wherever the source calls it, both being arrays
    of [Dimension] elements. *)
Fixpoint transform2 (src1 : list A) (src2 : list B) (dst : list C)
    (d_first : nat) (op : A → B → C) : list C * nat :=
  match src1, src2 with
  | x :: src1', y :: src2' =>
      transform2 src1' src2' (<[d_first := op x y]> dst) (S d_first) op
  | _, _ => (dst, d_first)
  end.

(** [std::fill(first, last, value)], by the distance [last - first] *)
Fixpoint fill_loop (n : nat) (dst : list A) (first : nat) (value : A)
    : list A :=
  match n with
  | O => dst
  | S n' => fill_loop n' (<[first := value]> dst) (S first) value
  end.

Definition fill (dst : list A) (first last : nat) (value : A) : list A :=
  fill_loop (last - first) dst first value.
End algorithms.

Section comparisons.
Context {T : Type} `{Compared T}.

(** [std::equal(first1, last1, first2)] *)
Fixpoint equal (xs ys : list T) : bool :=
  match xs, ys with
  | [], _ => true
  | x :: xs', y :: ys' => if equal_to x y then equal xs' ys' else false
  | _ :: _, [] => false
  end.

(** [std::lexicographical_compare(first1, last1, first2, last2)] *)
Fixpoint lexicographical_compare (xs ys : list T) : bool :=
  match xs, ys with
  | x :: xs', y :: ys' =>
      if less x y then true
      else if less y x then false
      else lexicographical_compare xs' ys'
  | [], _ :: _ => true
  | _, [] => false
  end.
End comparisons.

(** ** The class template [vector<T, Dimension>] *)

(** The only data member is [std::array<T, Dimension> data_]. *)
Record vector (T : Type) (Dimension : nat) : Type := Vector {
  data_ : list T
}.
Arguments Vector {T Dimension} data_.
Arguments data_ {T Dimension} v.

(** An array of [Dimension] elements has exactly that many. *)
Definition well_formed {T Dimension} (v : vector T Dimension) : Prop :=
  length (data_ v) = Dimension.

#[export] Instance well_formed_dec {T Dimension} (v : vector T Dimension) :
  Decision (well_formed v).
Proof. unfold well_formed. apply _. Defined.

Section store.
Context {T : Type} {Dimension : nat}.

Definition deref (p : addr)
    : exec (gmap addr (vector T Dimension)) (vector T Dimension) :=
  λ σ, match σ !! p with
       | Some v => Returns (v, σ)
       | None => Undefined
       end.

Definition write (p : addr) (v : vector T Dimension)
    : exec (gmap addr (vector T Dimension)) () :=
  λ σ, Returns ((), <[p := v]> σ).

(** The address of a new temporary or parameter object. *)
Definition allocate : exec (gmap addr (vector T Dimension)) addr :=
  λ σ, Returns (fresh (dom σ), σ).

(** The end of the lifetime of such an object. *)
Definition release (p : addr) : exec (gmap addr (vector T Dimension)) () :=
  λ σ, Returns ((), delete p σ).
End store.

Section assignment.
Context {T : Type} {Dimension : nat} `{Convertible c_int T}.

Local Abbreviation store := (gmap addr (vector T Dimension)).

(** [vector& operator=(const vector<T2, Dimension2>& other)], lines 58-71.
    [other_addr] is [&other]; [Dimension2 <= Dimension] is checked when the
    template is instantiated. *)
Definition assign_from {T2 : Type} {Dimension2 : nat}
    {conv : Convertible T2 T} (this : addr) (other_addr : addr)
    (other : vector T2 Dimension2) : exec store addr :=
  if decide (this = other_addr) then mret this
  else
    self ← deref this;
    let '(data, it) := transform (data_ other) (data_ self) 0 static_cast in
    write this (Vector (fill data it Dimension (static_cast 0%Z)));;
    mret this.

(** [explicit vector(const vector<T2, Dimension2>& other)], lines 43-47.
    The new object at [this] is default-initialised: [indeterminate] stands
    for whatever its array holds before the assignment. *)
Definition vector_from {T2 : Type} {Dimension2 : nat}
    {conv : Convertible T2 T} (this : addr)
    (indeterminate : vector T Dimension) (other_addr : addr)
    (other : vector T2 Dimension2) : exec store () :=
  write this indeterminate;;
  assign_from this other_addr other;;
  mret ().

(** [vector& operator=(const vector&)] and [vector& operator=(vector&&)],
    both defaulted: the array is copied member by member. *)
Definition assign_default (this : addr) (other : vector T Dimension)
    : exec store addr :=
  deref this;;
  write this other;;
  mret this.
End assignment.

Section construction_and_access.
Context {T : Type} {Dimension : nat}.

Local Abbreviation store := (gmap addr (vector T Dimension)).

(** One argument of the variadic constructor, of any type [static_cast<T>]
    accepts. *)
Inductive argument : Type :=
| Arg {A : Type} `{Convertible A T} (a : A).

Definition converted (x : argument) : T :=
  match x with
  | Arg a => static_cast a
  end.

(** [vector(Args&&... args) : data_{static_cast<T>(args)...}], lines 49-53.
    [sizeof...(Args) == Dimension] is checked when the template is
    instantiated. *)
Definition vector_of (args : list argument) : vector T Dimension :=
  Vector (converted <$> args).

(** [const_reference operator[](const size_type& index) const],
    lines 181-185 *)
Definition subscript_const (v : vector T Dimension) (index : nat)
    : outcome T :=
  if decide (index < Dimension) then
    match data_ v !! index with
    | Some x => Returns x
    | None => Undefined
    end
  else AssertionFailed.

(** [reference operator[](const size_type& index)], lines 175-179.  The
    reference to an element is the address of the vector and the index. *)
Definition subscript (this : addr) (index : nat) : exec store (addr * nat) :=
  assert (bool_decide (index < Dimension));;
  mret (this, index).

(** Reading through a reference to an element. *)
Definition load (r : addr * nat) : exec store T :=
  v ← deref r.1;
  match data_ v !! r.2 return exec store T with
  | Some x => mret x
  | None => undefined
  end.

(** Assigning through a reference to an element. *)
Definition store_to (r : addr * nat) (x : T) : exec store () :=
  v ← deref r.1;
  if decide (r.2 < length (data_ v))
  then write r.1 (Vector (<[r.2 := x]> (data_ v)))
  else undefined.
End construction_and_access.
Arguments argument T : clear implicits.

Section relational.
Context {T : Type} {Dimension : nat} `{Compared T}.

(** The relational operators, lines 73-101, hand over to those of
    [std::array], here as C++17 has them, the dialect the source asks for
    ([std::conjunction_v], line 49): [==] is [std::equal], [<] is
    [std::lexicographical_compare], and the other four are written with
    these two.  From C++20 on the ordering operators of [std::array] come
    from [operator<=>]; the two dialects part on elements that are not
    ordered, such as a NaN, and nowhere else. *)
Definition operator_lt (this other : vector T Dimension) : bool :=
  lexicographical_compare (data_ this) (data_ other).

Definition operator_eq (this other : vector T Dimension) : bool :=
  equal (data_ this) (data_ other).

Definition operator_ne (this other : vector T Dimension) : bool :=
  negb (equal (data_ this) (data_ other)).

Definition operator_gt (this other : vector T Dimension) : bool :=
  lexicographical_compare (data_ other) (data_ this).

Definition operator_ge (this other : vector T Dimension) : bool :=
  negb (lexicographical_compare (data_ this) (data_ other)).

Definition operator_le (this other : vector T Dimension) : bool :=
  negb (lexicographical_compare (data_ other) (data_ this)).
End relational.

(** Lexicographic comparison as the specification words it: the elements are
    compared in index order, the first index at which they differ decides,
    and sequences that differ nowhere are equal. *)
Fixpoint lexicographic {T : Type} (compare : T → T → comparison)
    (xs ys : list T) : comparison :=
  match xs, ys with
  | [], [] => Eq
  | [], _ :: _ => Lt
  | _ :: _, [] => Gt
  | x :: xs', y :: ys' =>
      match compare x y with
      | Eq => lexicographic compare xs' ys'
      | c => c
      end
  end.

(** [x] and [y] are ordered, and [compare] says how: exactly one of
    [x < y], [x == y], [y < x] holds.  A NaN is ordered with nothing. *)
Definition ordered_by {T : Type} `{Compared T}
    (compare : T → T → comparison) (x y : T) : Prop :=
  less x y = match compare x y with Lt => true | _ => false end ∧
  equal_to x y = match compare x y with Eq => true | _ => false end ∧
  less y x = match compare x y with Gt => true | _ => false end.

Section arithmetic.
Context {T T2 R : Type} {Dimension : nat} `{Promotes T T2 R}.

(** [auto operator+(const vector<T2, Dimension>& other) const],
    lines 103-117.  [result] is declared without an initializer; the
    argument [result] stands for what its array holds then. *)
Definition operator_plus (this : vector T Dimension)
    (other : vector T2 Dimension) (result : vector R Dimension)
    : vector R Dimension :=
  Vector (transform2 (data_ this) (data_ other) (data_ result) 0
            (λ val1 val2, plus val1 val2)).1.

(** [auto operator*(const T2& val) const], lines 119-133 *)
Definition operator_times (this : vector T Dimension) (val : T2)
    (result : vector R Dimension) : vector R Dimension :=
  Vector (transform (data_ this) (data_ result) 0
            (λ val1, times val1 val)).1.

(** [auto operator-(const vector<T2, Dimension>& other) const],
    lines 141-155 *)
Definition operator_minus (this : vector T Dimension)
    (other : vector T2 Dimension) (result : vector R Dimension)
    : vector R Dimension :=
  Vector (transform2 (data_ this) (data_ other) (data_ result) 0
            (λ val1 val2, minus val1 val2)).1.

(** [auto operator*(const T2& val, const vector<T, Dimension>& vec)],
    lines 321-325 *)
Definition operator_times_left (val : T2) (vec : vector T Dimension)
    (result : vector R Dimension) : vector R Dimension :=
  operator_times vec val result.

(** [auto comp_mult(vec, other)], lines 328-342 *)
Definition comp_mult (vec : vector T Dimension)
    (other : vector T2 Dimension) (result : vector R Dimension)
    : vector R Dimension :=
  Vector (transform2 (data_ vec) (data_ other) (data_ result) 0
            (λ val1 val2, times val1 val2)).1.
End arithmetic.

(** Which [operator=] takes a [vector<R, Dimension>] temporary into a
    [vector<T, Dimension>]: the defaulted move assignment when [R] is [T],
    the converting template otherwise. *)
Inductive assignment (R T : Type) : Type :=
| Defaulted (same : R = T)
| Converting (conv : Convertible R T).
Arguments Defaulted {R T} same.
Arguments Converting {R T} conv.

(** What the chosen assignment does to one element. *)
Definition assigned {R T : Type} (how : assignment R T) : R → T :=
  match how with
  | Defaulted same => λ x, eq_rect R (λ X, X) x T same
  | Converting conv => conv
  end.

Section compound.
Context {T R : Type} {Dimension : nat}.
Context `{Convertible c_int T} `{Promotes T T R}.
Context (how : assignment R T).

Local Abbreviation store := (gmap addr (vector T Dimension)).

(** [*this = tmp] for a temporary [tmp] at [tmp_addr] *)
Definition assign_temporary (this : addr) (tmp_addr : addr)
    (tmp : vector R Dimension) : exec store addr :=
  match how with
  | Defaulted same =>
      assign_default this
        (eq_rect R (λ X, vector X Dimension) tmp T same)
  | Converting conv =>
      assign_from (conv := conv) this tmp_addr tmp
  end.

(** [vector& operator*=(const_reference val)], lines 135-139 *)
Definition operator_times_assign (this : addr) (val : T)
    (result : vector R Dimension) : exec store addr :=
  self ← deref this;
  tmp_addr ← allocate;
  assign_temporary this tmp_addr (operator_times self val result);;
  mret this.

(** The call [a *= val] with [val] of another arithmetic type [T2]: the
    parameter is a [const T&], which binds to a temporary holding
    [static_cast<T>(val)]. *)
Definition operator_times_assign_converted {T2 : Type}
    {conv : Convertible T2 T} (this : addr) (val : T2)
    (result : vector R Dimension) : exec store addr :=
  operator_times_assign this (static_cast val) result.

(** [vector& operator-=(const vector& other)], lines 163-167 *)
Definition operator_minus_assign (this : addr) (other : addr)
    (result : vector R Dimension) : exec store addr :=
  self ← deref this;
  rhs ← deref other;
  tmp_addr ← allocate;
  assign_temporary this tmp_addr (operator_minus self rhs result);;
  mret this.

(** [vector& operator+=(const vector& other)], lines 169-173 *)
Definition operator_plus_assign (this : addr) (other : addr)
    (result : vector R Dimension) : exec store addr :=
  self ← deref this;
  rhs ← deref other;
  tmp_addr ← allocate;
  assign_temporary this tmp_addr (operator_plus self rhs result);;
  mret this.
End compound.

Section negation.
Context {T R : Type} {Dimension : nat}.
Context `{Convertible c_int T} `{Promotes T c_int R}.
Context (how : assignment R T).

Local Abbreviation store := (gmap addr (vector T Dimension)).

(** [vector& operator-() const], lines 157-161, as its body is written:
    [*this = *this * -1; return *this;].  The [const] of the declaration is
    not modelled; with it the assignment to [*this] is ill-formed. *)
Definition operator_negate (this : addr) (result : vector R Dimension)
    : exec store addr :=
  self ← deref this;
  tmp_addr ← allocate;
  assign_temporary how this tmp_addr (operator_times self (-1)%Z result);;
  mret this.
End negation.

(** ** The comma initializer *)

Section comma_initializer.
Context {T : Type} {Dimension : nat}.

Local Abbreviation store := (gmap addr (vector T Dimension)).

(** What stands to the right of [<<] or of a comma: a scalar that converts
    to [T], or a vector. *)
Inductive operand : Type :=
| Scalar {T2 : Type} {conv : Convertible T2 T} (val : T2)
| Vec {T2 : Type} {Dimension2 : nat} {conv : Convertible T2 T}
    (other : vector T2 Dimension2).

(** The members [vec_], a reference to the vector being filled, and
    [index_]. *)
Record comma_initializer : Type := CommaInitializer {
  vec_ : addr;
  index_ : nat
}.

(** Whether one of the two [operator,] templates takes the operand: the
    first, of line 371, takes a scalar that converts to [T]; the second, of
    line 382, takes a vector with [Dimension2 <= Dimension]. *)
Definition accepted (val : operand) : bool :=
  match val with
  | Scalar _ => true
  | @Vec _ Dimension2 _ _ => bool_decide (Dimension2 ≤ Dimension)
  end.

(** [auto& operator,(T2&& val)], lines 371-380 *)
Definition operator_comma {T2 : Type} {conv : Convertible T2 T}
    (this : comma_initializer) (val : T2) : exec store comma_initializer :=
  assert (bool_decide (index_ this < Dimension));;
  slot ← subscript (vec_ this) (index_ this);
  store_to slot (static_cast val);;
  mret (CommaInitializer (vec_ this) (S (index_ this))).

(** The loop [for(auto& elem : other) *this, elem;] *)
Fixpoint for_each_elem {T2 : Type} {conv : Convertible T2 T}
    (this : comma_initializer) (elems : list T2)
    : exec store comma_initializer :=
  match elems with
  | [] => mret this
  | elem :: elems' =>
      this' ← operator_comma this elem;
      for_each_elem this' elems'
  end.

(** [auto& operator,(const vector<T2, Dimension2>& other)], lines 382-391.
    [other] carries the elements the operand has when the comma is
    evaluated. *)
Definition operator_comma_vector {T2 : Type} {Dimension2 : nat}
    {conv : Convertible T2 T} (this : comma_initializer)
    (other : vector T2 Dimension2) : exec store comma_initializer :=
  for_each_elem this (data_ other).

(** The expression [*this, val].  With an operand that one of the templates
    takes it is the call of that template, and its value is the initializer
    again.  With a vector of [Dimension2 > Dimension] neither template is
    viable and the comma is the built-in one: the initializer is left alone
    and the value of the expression is [val], no initializer any more
    ([None]). *)
Definition comma (this : comma_initializer) (val : operand)
    : exec store (option comma_initializer) :=
  match val with
  | Scalar val =>
      this' ← operator_comma this val;
      mret (Some this')
  | @Vec _ Dimension2 _ other =>
      if decide (Dimension2 ≤ Dimension)
      then this' ← operator_comma_vector this other;
           mret (Some this')
      else mret None
  end.

(** [comma_initializer(vector<T, Dimension>& vec, T2&& val)], lines 359-364.
    The value of [*this, val] in its body is discarded. *)
Definition comma_initializer_new (vec : addr) (val : operand)
    : exec store comma_initializer :=
  next ← comma (CommaInitializer vec 0) val;
  match next with
  | Some this => mret this
  | None => mret (CommaInitializer vec 0)
  end.

(** [~comma_initializer()], lines 366-369 *)
Definition comma_initializer_delete (this : comma_initializer)
    : exec store () :=
  assert (bool_decide (index_ this = Dimension)).

(** [auto operator<<(vector<T, Dimension>& vec, T2&& val)], lines 400-404:
    the overload a statement starts with unless its first operand is an
    rvalue vector. *)
Definition operator_shl (vec : addr) (val : operand)
    : exec store comma_initializer :=
  comma_initializer_new vec val.

(** The body of
    [operator<<(vector<T, Dimension> vec, vector<T2, Dimension2>&& other)],
    lines 407-411, the overload for a first operand that is an rvalue
    vector.  The parameter [vec] is an object of its own, initialised with a
    copy of the argument, which is the vector at [arg], and the initializer
    is built on it. *)
Definition operator_shl_by_value_body {T2 : Type} {Dimension2 : nat}
    {conv : Convertible T2 T} (arg : addr) (other : vector T2 Dimension2)
    : exec store comma_initializer :=
  copy ← deref arg;
  vec ← allocate;
  write vec copy;;
  comma_initializer_new vec (Vec other).

(** The call as a whole.  The lifetime of the parameter ends as the
    function returns: the object is gone then, its storage free for the next
    object, and the initializer that is returned still refers to it. *)
Definition operator_shl_by_value {T2 : Type} {Dimension2 : nat}
    {conv : Convertible T2 T} (arg : addr) (other : vector T2 Dimension2)
    : exec store comma_initializer :=
  this ← operator_shl_by_value_body arg other;
  release (vec_ this);;
  mret this.

(** The commas that follow, left to right.  Once a comma is the built-in
    one its value is a vector, and the commas after it are built-in commas
    that have nothing to do with the initializer. *)
Fixpoint chain (this : comma_initializer) (vals : list operand)
    : exec store comma_initializer :=
  match vals with
  | [] => mret this
  | val :: vals' =>
      next ← comma this val;
      match next with
      | Some this' => chain this' vals'
      | None => mret this
      end
  end.

(** The expression statement [vec << first, vals...;] through [operator<<]
    by reference.  The initializer is a temporary, destroyed when the
    statement ends. *)
Definition build (vec : addr) (first : operand) (vals : list operand)
    : exec store () :=
  this ← operator_shl vec first;
  this' ← chain this vals;
  comma_initializer_delete this'.

(** The statement [vec << other, vals...;] with an rvalue vector [other],
    which goes through the by-value overload. *)
Definition build_by_value {T2 : Type} {Dimension2 : nat}
    {conv : Convertible T2 T} (arg : addr) (other : vector T2 Dimension2)
    (vals : list operand) : exec store () :=
  this ← operator_shl_by_value arg other;
  this' ← chain this vals;
  comma_initializer_delete this'.

(** The scalars an operand supplies, converted to [T] *)
Definition supplied (val : operand) : list T :=
  match val with
  | Scalar val => [static_cast val]
  | Vec other => static_cast <$> data_ other
  end.

(** Every scalar a list of operands supplies, in order: a vector operand
    counts as its elements. *)
Definition stream (vals : list operand) : list T :=
  vals ≫= supplied.

(** The scalars that reach the initializer: those of the first operand
    unless it is a vector neither template takes, *)
Definition taken_first (val : operand) : list T :=
  if accepted val then supplied val else [].

(** and those of the operands after it up to the first vector neither
    template takes. *)
Fixpoint taken_after (vals : list operand) : list T :=
  match vals with
  | [] => []
  | val :: vals' =>
      if accepted val then supplied val ++ taken_after vals' else []
  end.

(** The store once [xs] has been written into the vector at [vec] from
    [index] on. *)
Definition written (σ : store) (vec : addr) (data : list T) (index : nat)
    (xs : list T) : store :=
  <[vec := Vector (take index data ++ xs ++ drop (index + length xs) data)]> σ.
End comma_initializer.
Arguments operand T : clear implicits.

(** ** The aliases of lines 345-350 that the examples use *)
Definition vector2d : Type := vector c_double 2.
Definition vector3d : Type := vector c_double 3.
Definition vector2i : Type := vector c_int 2.
Definition vector3i : Type := vector c_int 3.

(** ** Members the sections above leave out *)

(** [data_[i]] on the array itself, which checks no bound. *)
Definition array_at {T : Type} (data : list T) (i : nat) : outcome T :=
  match data !! i with
  | Some a => Returns a
  | None => Undefined
  end.

(** The values of an [int]. *)
Definition int_range (z : Z) : Prop := (- 2 ^ 31 ≤ z < 2 ^ 31)%Z.

(** [sqrt] on a value of type [T], its result taken back into [T]. *)
Class Rooted (T : Type) := square_root : T → T.

#[export] Instance double_rooted : Rooted c_double := PrimFloat.sqrt.

Section inner_product.
Context {T R R2 : Type} {Dimension : nat}.
Context {zero : Convertible c_int T}.
Context {product : Promotes T T R} {sum : Promotes T R R2}.
Context {back : Convertible R2 T}.

(** [std::inner_product(first1, last1, first2, init)]: the loop
    [init = std::move(init) + *first1 * *first2], whose right-hand side, of
    type [decltype(T + T * T)], converts back to [T] on assignment.  The
    second range is as long as the first where the source calls it. *)
Fixpoint inner_product (xs ys : list T) (init : T) : T :=
  match xs, ys with
  | a :: xs', b :: ys' =>
      inner_product xs' ys'
        (static_cast (plus (Promotes := sum) init
                        (times (Promotes := product) a b)))
  | _, _ => init
  end.

(** [value_type dot(const vector& other) const], lines 306-309 *)
Definition dot (this other : vector T Dimension) : T :=
  inner_product (data_ this) (data_ other) (static_cast 0%Z).
End inner_product.

(** The members whose names the lists and the proofs below also use. *)
Module member.
Section member.
Context {T : Type} {Dimension : nat}.

Local Abbreviation store := (gmap addr (vector T Dimension)).

(** [const_reference x() const], lines 262-265 *)
Definition x (this : vector T Dimension) : outcome T :=
  array_at (data_ this) 0.

(** [const_reference y() const], lines 272-275 *)
Definition y (this : vector T Dimension) : outcome T :=
  array_at (data_ this) 1.

(** [const_reference z() const], lines 282-286, there for
    [Dimension >= 3] *)
Definition z (this : vector T Dimension) : outcome T :=
  array_at (data_ this) 2.

(** [const_reference w() const], lines 294-298, there for
    [Dimension >= 4] *)
Definition w (this : vector T Dimension) : outcome T :=
  array_at (data_ this) 3.

(** [reference x()], [reference y()], [reference z()], [reference w()],
    lines 267-304: references to slots 0 to 3. *)
Definition x_ref (this : addr) : exec store (addr * nat) := mret (this, 0).
Definition y_ref (this : addr) : exec store (addr * nat) := mret (this, 1).
Definition z_ref (this : addr) : exec store (addr * nat) := mret (this, 2).
Definition w_ref (this : addr) : exec store (addr * nat) := mret (this, 3).

(** [constexpr size_type size() const noexcept], lines 257-260: the size of
    a [std::array<T, Dimension>]. *)
Definition size (this : vector T Dimension) : nat := Dimension.
End member.

Section metric.
Context {T R R2 : Type} {Dimension : nat}.
Context {zero : Convertible c_int T}.
Context {product : Promotes T T R} {sum : Promotes T R R2}.
Context {back : Convertible R2 T} {root : Rooted T}.

(** [value_type length() const], lines 311-314 *)
Definition length (this : vector T Dimension) : T :=
  square_root (dot this this).
End metric.
End member.

(** * Properties *)

(** ** The algorithms *)

Lemma take_succ_insert {A : Type} (l : list A) (i : nat) (x : A) :
  i < length l → take (S i) (<[i := x]> l) = take i l ++ [x].
Proof.
  intros Hi.
  rewrite (take_S_r _ _ x) by (apply list_lookup_insert_eq; done).
  by rewrite take_insert_ge by lia.
Qed.

Section algorithm_facts.
Context {A B C : Type}.

Lemma transform_writes (op : A → B) (src : list A) :
  ∀ (dst : list B) (d_first : nat),
    d_first + length src ≤ length dst →
    transform src dst d_first op =
      (take d_first dst ++ (op <$> src) ++ drop (d_first + length src) dst,
       d_first + length src).
Proof.
  induction src as [|x src IH]; intros dst d Hlen; simpl in *.
  - rewrite Nat.add_0_r. by rewrite take_drop.
  - rewrite IH by (rewrite length_insert; lia).
    rewrite take_succ_insert by lia.
    rewrite drop_insert_lt by lia.
    rewrite <- app_assoc, Nat.add_succ_r. done.
Qed.

Lemma transform2_writes (op : A → B → C) (src1 : list A) :
  ∀ (src2 : list B) (dst : list C) (d_first : nat),
    length src2 = length src1 →
    d_first + length src1 ≤ length dst →
    transform2 src1 src2 dst d_first op =
      (take d_first dst ++ zip_with op src1 src2
         ++ drop (d_first + length src1) dst,
       d_first + length src1).
Proof.
  induction src1 as [|x src1 IH]; intros [|y src2] dst d Heq Hlen;
    simpl in *; try discriminate.
  - rewrite Nat.add_0_r. by rewrite take_drop.
  - rewrite IH by (rewrite ?length_insert; lia).
    rewrite take_succ_insert by lia.
    rewrite drop_insert_lt by lia.
    rewrite <- app_assoc, Nat.add_succ_r. done.
Qed.

Lemma fill_loop_writes (value : A) (n : nat) :
  ∀ (dst : list A) (first : nat),
    first + n ≤ length dst →
    fill_loop n dst first value =
      take first dst ++ replicate n value ++ drop (first + n) dst.
Proof.
  induction n as [|n IH]; intros dst first Hlen; simpl.
  - rewrite Nat.add_0_r. by rewrite take_drop.
  - rewrite IH by (rewrite length_insert; lia).
    rewrite take_succ_insert by lia.
    rewrite drop_insert_lt by lia.
    rewrite <- app_assoc, Nat.add_succ_r. done.
Qed.

Lemma fill_writes (value : A) (dst : list A) (first last : nat) :
  first ≤ last → last ≤ length dst →
  fill dst first last value =
    take first dst ++ replicate (last - first) value ++ drop last dst.
Proof.
  intros Hfl Hlen. unfold fill.
  rewrite fill_loop_writes by lia.
  by replace (first + (last - first)) with last by lia.
Qed.
End algorithm_facts.

(** ** Converting assignment and construction *)

Section assignment_facts.
Context {T : Type} {Dimension : nat} `{Convertible c_int T}.
Context {T2 : Type} {Dimension2 : nat} {conv : Convertible T2 T}.

Local Abbreviation store := (gmap addr (vector T Dimension)).

(** The array the converting assignment leaves behind. *)
Lemma assign_from_run (σ : store) (this other_addr : addr)
    (self : vector T Dimension) (other : vector T2 Dimension2) :
  σ !! this = Some self →
  well_formed self → well_formed other → Dimension2 ≤ Dimension →
  this ≠ other_addr →
  assign_from this other_addr other σ =
    Returns (this,
      <[this := Vector ((static_cast <$> data_ other)
                          ++ replicate (Dimension - Dimension2)
                               (static_cast 0%Z))]> σ).
Proof.
  unfold well_formed. intros Hself Hwf Hwf2 Hle Hne.
  unfold assign_from. rewrite decide_False by done.
  unfold mbind, exec_bind, deref. rewrite Hself.
  rewrite transform_writes by (simpl; lia).
  simpl. rewrite Hwf2.
  rewrite fill_writes; rewrite ?length_app, ?length_fmap, ?length_drop; try lia.
  rewrite take_app_length' by (by rewrite length_fmap).
  rewrite drop_ge by (rewrite length_app, length_fmap, length_drop; lia).
  by rewrite app_nil_r.
Qed.
End assignment_facts.

Section conversion_claims.
Context {T : Type} {Dimension : nat} `{Convertible c_int T}.
Context {T2 : Type} {Dimension2 : nat} {conv : Convertible T2 T}.

Local Abbreviation store := (gmap addr (vector T Dimension)).

Lemma converted_then_zero_lookup (other : vector T2 Dimension2) :
  well_formed other →
  let data := (static_cast <$> data_ other)
                ++ replicate (Dimension - Dimension2) (static_cast 0%Z) in
  (∀ i x, data_ other !! i = Some x → data !! i = Some (static_cast x)) ∧
  (∀ i, Dimension2 ≤ i < Dimension → data !! i = Some (static_cast 0%Z)).
Proof.
  intros Hwf. unfold well_formed in Hwf. cbv zeta. split.
  - intros i x Hx. rewrite lookup_app_l.
    + by rewrite list_lookup_fmap, Hx.
    + rewrite length_fmap. by eapply lookup_lt_Some.
  - intros i [Hlo Hhi]. rewrite lookup_app_r by (rewrite length_fmap; lia).
    apply lookup_replicate_2. rewrite length_fmap. lia.
Qed.

(** C1.  Assigning a [vector<T2, Dimension2>] with
    [Dimension2 <= Dimension] into a [vector<T, Dimension>], or constructing
    the latter from the former, leaves [static_cast<T>] of the source
    elements, in order, in the first [Dimension2] slots and
    [static_cast<T>(0)] in every slot from [Dimension2] to [Dimension - 1].
    A source that is the target itself holds the target's elements. *)
Theorem converting_assignment_zero_fills (σ : store)
    (this other_addr new : addr) (self indeterminate : vector T Dimension)
    (other : vector T2 Dimension2) :
  σ !! this = Some self →
  well_formed self → well_formed indeterminate → well_formed other →
  Dimension2 ≤ Dimension →
  (other_addr = this → static_cast <$> data_ other = data_ self) →
  new ≠ other_addr →
  ∃ v : vector T Dimension,
    assign_from this other_addr other σ = Returns (this, <[this := v]> σ) ∧
    vector_from new indeterminate other_addr other σ
      = Returns ((), <[new := v]> σ) ∧
    well_formed v ∧
    (∀ i x, data_ other !! i = Some x →
            data_ v !! i = Some (static_cast x)) ∧
    (∀ i, Dimension2 ≤ i < Dimension →
          data_ v !! i = Some (static_cast 0%Z)).
Proof.
  intros Hself Hwf Hind Hwf2 Hle Halias Hnew.
  exists (Vector ((static_cast <$> data_ other)
                    ++ replicate (Dimension - Dimension2) (static_cast 0%Z))).
  destruct (converted_then_zero_lookup other Hwf2) as [Hconv Hzero].
  repeat split; try done.
  - destruct (decide (this = other_addr)) as [->|Hne].
    + unfold assign_from. rewrite decide_True by done.
      unfold mret, exec_ret. do 2 f_equal.
      symmetry. apply insert_id. rewrite Hself. f_equal.
      destruct self as [d]. f_equal. simpl in *.
      specialize (Halias eq_refl). unfold well_formed in *. simpl in *.
      assert (Dimension2 = Dimension) as ->.
      { rewrite <- Hwf2, <- Hwf, <- Halias. by rewrite length_fmap. }
      rewrite Nat.sub_diag. simpl. by rewrite app_nil_r.
    + by apply (assign_from_run _ _ _ self).
  - unfold vector_from, mbind, exec_bind, write.
    rewrite (assign_from_run _ new other_addr indeterminate other);
      try done; [|by rewrite lookup_insert_eq].
    by rewrite insert_insert_eq.
  - unfold well_formed in *. simpl.
    rewrite length_app, length_fmap, length_replicate. lia.
Qed.

(** C5.  The converting assignment called with the vector itself as its
    source returns at the identity test and leaves the store, and with it
    every element of the vector, as it was. *)
Theorem self_assignment_is_noop (σ : store) (this : addr)
    (cast : Convertible T T) (self : vector T Dimension) :
  assign_from (conv := cast) this this self σ = Returns (this, σ).
Proof.
  unfold assign_from. by rewrite decide_True.
Qed.
End conversion_claims.

(** [vector3d(vector2d(1, 2))] is [(1, 2, 0)], whatever the new object held
    before. *)
Example vector3d_from_vector2d :
  vector_from (T := c_double) (Dimension := 3) 2%positive
    (Vector [7; 8; 9]%float) 1%positive
    (Vector [1; 2]%float : vector2d) ∅
  = Returns ((), {[ 2%positive := Vector [1; 2; 0]%float ]}).
Proof. vm_compute. reflexivity. Qed.

Lemma converting_assignment_zero_fills_witness :
  let σ : gmap addr (vector c_double 3) :=
    {[ 1%positive := Vector [7; 8; 9]%float ]} in
  let other : vector2d := Vector [1; 2]%float in
  σ !! 1%positive = Some (Vector [7; 8; 9]%float) ∧
  well_formed (Vector [7; 8; 9]%float : vector3d) ∧
  well_formed (Vector [4; 5; 6]%float : vector3d) ∧
  well_formed other ∧
  2 ≤ 3 ∧
  (2%positive = 1%positive →
   static_cast <$> data_ other = [7; 8; 9]%float) ∧
  3%positive ≠ 2%positive ∧
  ∃ v : vector3d,
    assign_from 1%positive 2%positive other σ
      = Returns (1%positive, <[1%positive := v]> σ) ∧
    vector_from 3%positive (Vector [4; 5; 6]%float) 2%positive other σ
      = Returns ((), <[3%positive := v]> σ) ∧
    well_formed v ∧
    (∀ i x, data_ other !! i = Some x →
            data_ v !! i = Some (static_cast x)) ∧
    (∀ i, 2 ≤ i < 3 → data_ v !! i = Some (static_cast 0%Z)).
Proof.
  intros σ other.
  assert (H1 : σ !! 1%positive = Some (Vector [7; 8; 9]%float))
    by reflexivity.
  assert (H2 : well_formed (Vector [7; 8; 9]%float : vector3d))
    by reflexivity.
  assert (H3 : well_formed (Vector [4; 5; 6]%float : vector3d))
    by reflexivity.
  assert (H4 : well_formed other) by reflexivity.
  assert (H5 : 2 ≤ 3) by lia.
  assert (H6 : 2%positive = 1%positive →
               static_cast <$> data_ other = [7; 8; 9]%float)
    by (intros; discriminate).
  assert (H7 : 3%positive ≠ 2%positive) by (intros; discriminate).
  exact (conj H1 (conj H2 (conj H3 (conj H4 (conj H5 (conj H6 (conj H7
    (converting_assignment_zero_fills σ 1%positive 2%positive 3%positive
       _ _ other
       H1 H2 H3 H4 H5 H6 H7)))))))).
Defined.

(** ** Construction from scalars and element access *)

Section access_claims.
Context {T : Type} {Dimension : nat}.

Local Abbreviation store := (gmap addr (vector T Dimension)).

Lemma subscript_load_run (σ : store) (this : addr)
    (v : vector T Dimension) (i : nat) (x : T) :
  σ !! this = Some v → i < Dimension → data_ v !! i = Some x →
  (slot ← subscript this i; load slot) σ = Returns (x, σ).
Proof.
  intros Hv Hi Hx.
  unfold subscript, load, mbind, exec_bind, assert, deref, mret, exec_ret.
  rewrite bool_decide_eq_true_2 by done. simpl.
  by rewrite Hv, Hx.
Qed.

(** C6.  A vector constructed from [Dimension] arguments holds, at each
    index [i] below [Dimension], [static_cast<T>] of the [i]-th argument: both
    the [const] subscript on the value and the subscript on the object placed
    in the store read it back. *)
Theorem constructed_elements_read_back (args : list (argument T))
    (i : nat) (a : argument T) :
  length args = Dimension →
  args !! i = Some a →
  subscript_const (vector_of (Dimension := Dimension) args) i
    = Returns (converted a) ∧
  ∀ (σ : store) (this : addr),
    (write this (vector_of args);;
     slot ← subscript this i;
     load slot) σ
    = Returns (converted a, <[this := vector_of args]> σ).
Proof.
  intros Hlen Ha.
  assert (Hi : i < Dimension).
  { rewrite <- Hlen. by eapply lookup_lt_Some. }
  assert (Hx : data_ (vector_of (Dimension := Dimension) args) !! i
               = Some (converted a)).
  { simpl. by rewrite list_lookup_fmap, Ha. }
  split.
  - unfold subscript_const. rewrite decide_True by done. by rewrite Hx.
  - intros σ this.
    change ((slot ← subscript this i; load slot)
              (<[this := vector_of args]> σ)
            = Returns (converted a, <[this := vector_of args]> σ)).
    eapply subscript_load_run; [apply lookup_insert_eq | done | done].
Qed.
End access_claims.

Lemma constructed_elements_read_back_witness :
  let args : list (argument c_double) :=
    [Arg 1%float; Arg 2%Z; Arg 3%float] in
  length args = 3 ∧
  args !! 1 = Some (Arg 2%Z) ∧
  subscript_const (vector_of (Dimension := 3) args) 1 = Returns 2%float ∧
  ∀ (σ : gmap addr vector3d) (this : addr),
    (write this (vector_of args);;
     slot ← subscript this 1;
     load slot) σ
    = Returns (2%float, <[this := vector_of args]> σ).
Proof.
  intros args.
  assert (H1 : length args = 3) by reflexivity.
  assert (H2 : args !! 1 = Some (Arg 2%Z)) by reflexivity.
  exact (conj H1 (conj H2
    (constructed_elements_read_back (Dimension := 3) args 1 (Arg 2%Z) H1 H2))).
Defined.

(** ** Comparison *)

Section relational_claims.
Context {T : Type} {Dimension : nat} `{Compared T}.

(** The built-in [<] and [==] of a totally ordered [T], such as the integer
    types, read off a three-way comparison. *)
Variable compare : T → T → comparison.
Hypothesis less_compare : ∀ x y, less x y = true ↔ compare x y = Lt.
Hypothesis equal_compare : ∀ x y, equal_to x y = true ↔ compare x y = Eq.
Hypothesis compare_swap : ∀ x y, compare y x = CompOpp (compare x y).

Lemma less_by_compare (x y : T) :
  less x y = match compare x y with Lt => true | _ => false end.
Proof.
  destruct (less x y) eqn:E.
  - apply less_compare in E. by rewrite E.
  - destruct (compare x y) eqn:E'; try done.
    apply less_compare in E'. congruence.
Qed.

Lemma greater_by_compare (x y : T) :
  less y x = match compare x y with Gt => true | _ => false end.
Proof.
  rewrite less_by_compare, compare_swap. by destruct (compare x y).
Qed.

Lemma equal_to_by_compare (x y : T) :
  equal_to x y = match compare x y with Eq => true | _ => false end.
Proof.
  destruct (equal_to x y) eqn:E.
  - apply equal_compare in E. by rewrite E.
  - destruct (compare x y) eqn:E'; try done.
    apply equal_compare in E'. congruence.
Qed.

Lemma lexicographic_swap (xs : list T) :
  ∀ ys, lexicographic compare ys xs = CompOpp (lexicographic compare xs ys).
Proof.
  induction xs as [|x xs IH]; intros [|y ys]; simpl; try done.
  rewrite (compare_swap x y). destruct (compare x y); simpl; auto.
Qed.

Lemma lexicographical_compare_lt (xs : list T) :
  ∀ ys, lexicographical_compare xs ys
        = match lexicographic compare xs ys with Lt => true | _ => false end.
Proof.
  induction xs as [|x xs IH]; intros [|y ys]; simpl; try done.
  rewrite less_by_compare, greater_by_compare.
  destruct (compare x y); auto.
Qed.

Lemma lexicographical_compare_gt (xs ys : list T) :
  lexicographical_compare ys xs
  = match lexicographic compare xs ys with Gt => true | _ => false end.
Proof.
  rewrite lexicographical_compare_lt, lexicographic_swap.
  by destruct (lexicographic compare xs ys).
Qed.

Lemma equal_eq (xs : list T) :
  ∀ ys, length xs = length ys →
        equal xs ys
        = match lexicographic compare xs ys with Eq => true | _ => false end.
Proof.
  induction xs as [|x xs IH]; intros [|y ys] Hlen; simpl in *; try done.
  rewrite equal_to_by_compare.
  destruct (compare x y); auto.
Qed.

End relational_claims.

Lemma int_less_compare (x y : c_int) : less x y = true ↔ (x ?= y)%Z = Lt.
Proof. simpl. unfold Z.ltb. by destruct (x ?= y)%Z. Qed.

Lemma int_equal_compare (x y : c_int) :
  equal_to x y = true ↔ (x ?= y)%Z = Eq.
Proof. simpl. rewrite Z.eqb_eq. symmetry. apply Z.compare_eq_iff. Qed.

Section relational_by_elements.
Context {T : Type} {Dimension : nat} `{Compared T}.


End relational_by_elements.

(** Any two [int]s are ordered. *)
Lemma int_ordered (x y : c_int) : ordered_by Z.compare x y.
Proof.
  unfold ordered_by. simpl. rewrite Z.eqb_compare. unfold Z.ltb.
  rewrite (Z.compare_antisym x y). by destruct (x ?= y)%Z.
Qed.

Lemma int_vectors_ordered (xs : list c_int) :
  ∀ ys, length xs = length ys → Forall2 (ordered_by Z.compare) xs ys.
Proof.
  induction xs as [|x xs IH]; intros [|y ys] Hlen; simpl in *; try done.
  constructor; [apply int_ordered|]. apply IH. lia.
Qed.

(** So are any two [double]s neither of which is a NaN. *)
Lemma double_not_nan (x : c_double) :
  PrimFloat.is_nan x = false → Prim2SF x ≠ S754_nan.
Proof.
  unfold PrimFloat.is_nan. rewrite FloatAxioms.eqb_spec. intros Hx E.
  rewrite E in Hx. discriminate Hx.
Qed.

Lemma SFcompare_swap (f1 f2 : spec_float) :
  SFcompare f2 f1
  = match SFcompare f1 f2 with
    | Some c => Some (CompOpp c)
    | None => None
    end.
Proof.
  destruct f1 as [s1|s1| |s1 m1 e1], f2 as [s2|s2| |s2 m2 e2]; simpl;
    try reflexivity; try (destruct s1; reflexivity);
    try (destruct s2; reflexivity); try (destruct s1, s2; reflexivity).
  rewrite (Z.compare_antisym e1 e2).
  change (PosDef.Pos.compare_cont Eq m2 m1) with (Pos.compare m2 m1).
  change (PosDef.Pos.compare_cont Eq m1 m2) with (Pos.compare m1 m2).
  rewrite (Pos.compare_antisym m1 m2).
  destruct s1, s2; try reflexivity;
    destruct (e1 ?= e2)%Z; simpl; try reflexivity;
    destruct (m1 ?= m2)%positive; reflexivity.
Qed.

Lemma double_ordered (x y : c_double) :
  PrimFloat.is_nan x = false → PrimFloat.is_nan y = false →
  ordered_by double_compare x y.
Proof.
  intros Hx Hy. apply double_not_nan in Hx, Hy.
  unfold ordered_by, double_compare. simpl.
  rewrite !FloatAxioms.ltb_spec, FloatAxioms.eqb_spec,
    FloatAxioms.compare_spec.
  unfold SFltb, SFeqb. rewrite (SFcompare_swap (Prim2SF x) (Prim2SF y)).
  destruct (SFcompare (Prim2SF x) (Prim2SF y)) as [[| |]|] eqn:E; simpl;
    try (repeat split; reflexivity).
  exfalso. destruct (Prim2SF x), (Prim2SF y); simpl in E;
    try discriminate E; congruence.
Qed.

Lemma double_vectors_ordered (xs : list c_double) :
  ∀ ys, length xs = length ys →
        Forall (λ x, PrimFloat.is_nan x = false) xs →
        Forall (λ y, PrimFloat.is_nan y = false) ys →
        Forall2 (ordered_by double_compare) xs ys.
Proof.
  induction xs as [|x xs IH]; intros [|y ys] Hlen Hxs Hys; simpl in *;
    try done.
  apply Forall_cons in Hxs as [Hx Hxs]. apply Forall_cons in Hys as [Hy Hys].
  constructor; [by apply double_ordered|]. apply IH; [lia|done|done].
Qed.


(** [vector2i(1, 5) < vector2i(1, 6)]: the second element breaks the tie. *)
Example vector2i_tie_broken_by_second :
  operator_lt (Vector [1; 5]%Z : vector2i) (Vector [1; 6]%Z) = true ∧
  operator_lt (Vector [1; 5]%Z : vector2i) (Vector [2; 0]%Z) = true.
Proof. split; reflexivity. Qed.

(** ** Arithmetic *)

Section arithmetic_facts.
Context {T T2 R : Type} {Dimension : nat} `{Promotes T T2 R}.

Lemma operator_times_data (this : vector T Dimension) (val : T2)
    (result : vector R Dimension) :
  well_formed this → well_formed result →
  operator_times this val result
  = Vector ((λ val1, times val1 val) <$> data_ this).
Proof.
  unfold well_formed, operator_times. intros Hthis Hres.
  rewrite transform_writes by (simpl; lia). simpl.
  rewrite drop_ge by lia. by rewrite app_nil_r.
Qed.

Lemma operator_plus_data (this : vector T Dimension)
    (other : vector T2 Dimension) (result : vector R Dimension) :
  well_formed this → well_formed other → well_formed result →
  operator_plus this other result
  = Vector (zip_with plus (data_ this) (data_ other)).
Proof.
  unfold well_formed, operator_plus. intros Hthis Hother Hres.
  rewrite transform2_writes by (simpl; lia). simpl.
  rewrite drop_ge by lia. by rewrite app_nil_r.
Qed.

Lemma operator_minus_data (this : vector T Dimension)
    (other : vector T2 Dimension) (result : vector R Dimension) :
  well_formed this → well_formed other → well_formed result →
  operator_minus this other result
  = Vector (zip_with minus (data_ this) (data_ other)).
Proof.
  unfold well_formed, operator_minus. intros Hthis Hother Hres.
  rewrite transform2_writes by (simpl; lia). simpl.
  rewrite drop_ge by lia. by rewrite app_nil_r.
Qed.

(** C9.  With the scalar on the left the product is the product with the
    scalar on the right: the two vectors are equal, and slot [i] of either
    holds [vec[i] * val]. *)
Theorem scalar_on_the_left_is_scalar_on_the_right (val : T2)
    (vec : vector T Dimension) (result result' : vector R Dimension) :
  well_formed vec → well_formed result → well_formed result' →
  operator_times_left val vec result = operator_times vec val result' ∧
  ∀ i x, data_ vec !! i = Some x →
    data_ (operator_times_left val vec result) !! i = Some (times x val) ∧
    data_ (operator_times vec val result') !! i = Some (times x val).
Proof.
  intros Hvec Hres Hres'. unfold operator_times_left.
  rewrite !operator_times_data by done. split; [done|].
  intros i x Hx. simpl. by rewrite list_lookup_fmap, Hx.
Qed.
End arithmetic_facts.

(** [vector3d(1, 2, 3) * 2] and [2 * vector3d(1, 2, 3)] are both
    [(2, 4, 6)]. *)
Lemma scalar_on_the_left_is_scalar_on_the_right_witness :
  let vec : vector3d := Vector [1; 2; 3]%float in
  let result : vector3d := Vector [7; 8; 9]%float in
  let result' : vector3d := Vector [0; 0; 0]%float in
  well_formed vec ∧ well_formed result ∧ well_formed result' ∧
  operator_times_left 2%Z vec result = operator_times vec 2%Z result' ∧
  ∀ i x, data_ vec !! i = Some x →
    data_ (operator_times_left 2%Z vec result) !! i
      = Some (times x 2%Z) ∧
    data_ (operator_times vec 2%Z result') !! i = Some (times x 2%Z).
Proof.
  intros vec result result'.
  assert (H1 : well_formed vec) by reflexivity.
  assert (H2 : well_formed result) by reflexivity.
  assert (H3 : well_formed result') by reflexivity.
  exact (conj H1 (conj H2 (conj H3
    (scalar_on_the_left_is_scalar_on_the_right 2%Z vec result result'
       H1 H2 H3)))).
Defined.

Example vector3d_times_two :
  operator_times (Vector [1; 2; 3]%float : vector3d) 2%Z
    (Vector [7; 8; 9]%float) = (Vector [2; 4; 6]%float : vector3d) ∧
  operator_times_left 2%Z (Vector [1; 2; 3]%float : vector3d)
    (Vector [7; 8; 9]%float) = (Vector [2; 4; 6]%float : vector3d).
Proof. split; vm_compute; reflexivity. Qed.

(** ** Compound assignment and negation *)

Lemma fresh_not_allocated {T : Type} {Dimension : nat}
    (σ : gmap addr (vector T Dimension)) (p : addr) (v : vector T Dimension) :
  σ !! p = Some v → p ≠ fresh (dom σ).
Proof.
  intros Hp ->. apply (is_fresh (dom σ)). apply elem_of_dom. by eexists.
Qed.

Lemma assign_default_run {T : Type} {Dimension : nat}
    (σ : gmap addr (vector T Dimension)) (this : addr)
    (self other : vector T Dimension) :
  σ !! this = Some self →
  assign_default this other σ = Returns (this, <[this := other]> σ).
Proof.
  intros Hself. unfold assign_default, mbind, exec_bind, deref.
  by rewrite Hself.
Qed.

(** Either assignment stores the temporary's elements, each taken into
    [T]. *)
Lemma assign_temporary_run {T R : Type} {Dimension : nat}
    `{Convertible c_int T} (how : assignment R T)
    (σ : gmap addr (vector T Dimension)) (this tmp_addr : addr)
    (self : vector T Dimension) (tmp : vector R Dimension) :
  σ !! this = Some self → well_formed self → well_formed tmp →
  this ≠ tmp_addr →
  assign_temporary how this tmp_addr tmp σ
  = Returns (this, <[this := Vector (assigned how <$> data_ tmp)]> σ).
Proof.
  intros Hself Hwf Htmp Hne. destruct how as [same|conv]; simpl.
  - destruct same. simpl. rewrite (assign_default_run _ _ self) by done.
    rewrite list_fmap_id. by destruct tmp.
  - rewrite (assign_from_run _ _ _ self) by done.
    rewrite Nat.sub_diag. simpl. by rewrite app_nil_r.
Qed.

Section compound_claims.
Context {T R : Type} {Dimension : nat}.
Context `{Convertible c_int T} `{Promotes T T R}.
Context (how : assignment R T).

Local Abbreviation store := (gmap addr (vector T Dimension)).

(** C8, as amended.  For [b] a vector of the type of [a] and [s] a scalar
    of its element type, [a += b], [a -= b] and [a *= s] each end as the
    assignment of the temporary [a + b], [a - b], [a * s] to [a] ends: with
    the same store and with a reference to [a] as the result.  Slot [i] of
    [a] then holds [a[i] op b[i]], or [a[i] * s], taken back into [T].  [b]
    may be [a].  With a scalar [s2] of another arithmetic type [a *= s2]
    ends as the assignment of [a * static_cast<T>(s2)] does. *)
Theorem compound_assignments_assign_back {T2 : Type}
    {conv : Convertible T2 T} (σ : store) (this other : addr)
    (a b : vector T Dimension) (s : T) (s2 : T2)
    (result : vector R Dimension) :
  σ !! this = Some a → σ !! other = Some b →
  well_formed a → well_formed b → well_formed result →
  let back (tmp : vector R Dimension) :=
    assign_temporary how this (fresh (dom σ)) tmp σ in
  let stored (data : list R) : outcome (addr * store) :=
    Returns (this, <[this := Vector (assigned how <$> data)]> σ) in
  (operator_plus_assign how this other result σ
     = back (operator_plus a b result) ∧
   back (operator_plus a b result)
     = stored (zip_with plus (data_ a) (data_ b))) ∧
  (operator_minus_assign how this other result σ
     = back (operator_minus a b result) ∧
   back (operator_minus a b result)
     = stored (zip_with minus (data_ a) (data_ b))) ∧
  (operator_times_assign how this s result σ
     = back (operator_times a s result) ∧
   back (operator_times a s result)
     = stored ((λ x, times x s) <$> data_ a)) ∧
  (operator_times_assign_converted how this s2 result σ
     = back (operator_times a (static_cast s2 : T) result) ∧
   back (operator_times a (static_cast s2 : T) result)
     = stored ((λ x, times x (static_cast s2 : T)) <$> data_ a)).
Proof.
  intros Ha Hb Hwa Hwb Hres back stored. subst back stored.
  unfold operator_times_assign_converted.
  pose proof (fresh_not_allocated σ this a Ha) as Hfresh.
  assert (Hrun : ∀ data : list R, length data = Dimension →
    assign_temporary how this (fresh (dom σ)) (Vector data) σ
    = Returns (this, <[this := Vector (assigned how <$> data)]> σ)).
  { intros data Hlen. by apply (assign_temporary_run how σ _ _ a). }
  rewrite operator_plus_data, operator_minus_data, !operator_times_data
    by done.
  unfold operator_plus_assign, operator_minus_assign, operator_times_assign.
  unfold mbind, exec_bind, deref, allocate. rewrite Ha, Hb.
  rewrite operator_plus_data, operator_minus_data, !operator_times_data
    by done.
  unfold well_formed in *.
  rewrite !Hrun by (rewrite ?length_zip_with, ?length_fmap; lia).
  done.
Qed.
End compound_claims.

Lemma compound_assignments_assign_back_witness :
  let σ : gmap addr vector2i :=
    {[ 1%positive := Vector [1; 2]%Z; 2%positive := Vector [10; 20]%Z ]} in
  let a : vector2i := Vector [1; 2]%Z in
  let b : vector2i := Vector [10; 20]%Z in
  let result : vector2i := Vector [7; 7]%Z in
  let how : assignment c_int c_int := Defaulted eq_refl in
  σ !! 1%positive = Some a ∧ σ !! 2%positive = Some b ∧
  well_formed a ∧ well_formed b ∧ well_formed result ∧
  (operator_plus_assign how 1%positive 2%positive result σ
     = assign_temporary how 1%positive (fresh (dom σ))
         (operator_plus a b result) σ ∧
   assign_temporary how 1%positive (fresh (dom σ))
     (operator_plus a b result) σ
     = Returns (1%positive,
         <[1%positive := Vector (assigned how
                                   <$> zip_with plus (data_ a) (data_ b))]> σ))
  ∧
  (operator_minus_assign how 1%positive 2%positive result σ
     = assign_temporary how 1%positive (fresh (dom σ))
         (operator_minus a b result) σ ∧
   assign_temporary how 1%positive (fresh (dom σ))
     (operator_minus a b result) σ
     = Returns (1%positive,
         <[1%positive := Vector (assigned how
                                   <$> zip_with minus (data_ a) (data_ b))]> σ))
  ∧
  (operator_times_assign how 1%positive 3%Z result σ
     = assign_temporary how 1%positive (fresh (dom σ))
         (operator_times a 3%Z result) σ ∧
   assign_temporary how 1%positive (fresh (dom σ))
     (operator_times a 3%Z result) σ
     = Returns (1%positive,
         <[1%positive := Vector (assigned how
                                   <$> ((λ x, times x 3%Z) <$> data_ a))]> σ))
  ∧
  (operator_times_assign_converted how 1%positive 2.5%float result σ
     = assign_temporary how 1%positive (fresh (dom σ))
         (operator_times a (static_cast 2.5%float : c_int) result) σ ∧
   assign_temporary how 1%positive (fresh (dom σ))
     (operator_times a (static_cast 2.5%float : c_int) result) σ
     = Returns (1%positive,
         <[1%positive :=
             Vector (assigned how
                       <$> ((λ x, times x (static_cast 2.5%float : c_int))
                              <$> data_ a))]> σ)).
Proof.
  intros σ a b result how.
  assert (H1 : σ !! 1%positive = Some a) by reflexivity.
  assert (H2 : σ !! 2%positive = Some b) by reflexivity.
  assert (H3 : well_formed a) by reflexivity.
  assert (H4 : well_formed b) by reflexivity.
  assert (H5 : well_formed result) by reflexivity.
  exact (conj H1 (conj H2 (conj H3 (conj H4 (conj H5
    (compound_assignments_assign_back how σ 1%positive 2%positive a b 3%Z
       2.5%float result H1 H2 H3 H4 H5)))))).
Defined.

(** [a *= 2.5] on [vector2i(1, 2)] multiplies by 2, the [int] the parameter
    of [operator*=] holds, and leaves [(2, 4)]; assigning [a * 2.5] back
    multiplies in [double] and converts the products, and leaves
    [(2, 5)]. *)
Lemma times_assign_converts_its_scalar_first :
  let σ : gmap addr vector2i := {[ 1%positive := Vector [1; 2]%Z ]} in
  let a : vector2i := Vector [1; 2]%Z in
  operator_times_assign_converted (Defaulted eq_refl) 1%positive 2.5%float
    (Vector [7; 7]%Z) σ
  = Returns (1%positive, {[ 1%positive := Vector [2; 4]%Z ]}) ∧
  assign_temporary (Converting double_to_int) 1%positive (fresh (dom σ))
    (operator_times a 2.5%float (Vector [7; 7]%float : vector2d)) σ
  = Returns (1%positive, {[ 1%positive := Vector [2; 5]%Z ]}) ∧
  operator_times_assign_converted (Defaulted eq_refl) 1%positive 2.5%float
    (Vector [7; 7]%Z) σ
  ≠ assign_temporary (Converting double_to_int) 1%positive (fresh (dom σ))
      (operator_times a 2.5%float (Vector [7; 7]%float : vector2d)) σ.
Proof.
  intros σ a.
  assert (Hcompound :
    operator_times_assign_converted (Defaulted eq_refl) 1%positive
      2.5%float (Vector [7; 7]%Z) σ
    = Returns (1%positive, {[ 1%positive := Vector [2; 4]%Z ]}))
    by (vm_compute; reflexivity).
  assert (Hback :
    assign_temporary (Converting double_to_int) 1%positive (fresh (dom σ))
      (operator_times a 2.5%float (Vector [7; 7]%float : vector2d)) σ
    = Returns (1%positive, {[ 1%positive := Vector [2; 5]%Z ]}))
    by (vm_compute; reflexivity).
  split; [exact Hcompound|]. split; [exact Hback|].
  rewrite Hcompound, Hback. intros Hsame.
  apply (f_equal (λ run : outcome (addr * gmap addr vector2i),
                    match run with
                    | Returns (_, σ') => σ' !! 1%positive
                    | _ => None
                    end)) in Hsame.
  vm_compute in Hsame. discriminate Hsame.
Qed.

(** [a += b] on [vector2i(1, 2)] and [vector2i(10, 20)], and [a += a]. *)
Example vector2i_plus_assign :
  let σ : gmap addr vector2i :=
    {[ 1%positive := Vector [1; 2]%Z; 2%positive := Vector [10; 20]%Z ]} in
  operator_plus_assign (Defaulted eq_refl) 1%positive 2%positive
    (Vector [7; 7]%Z) σ
  = Returns (1%positive,
      {[ 1%positive := Vector [11; 22]%Z; 2%positive := Vector [10; 20]%Z ]})
  ∧
  operator_plus_assign (Defaulted eq_refl) 1%positive 1%positive
    (Vector [7; 7]%Z) σ
  = Returns (1%positive,
      {[ 1%positive := Vector [2; 4]%Z; 2%positive := Vector [10; 20]%Z ]}).
Proof. split; vm_compute; reflexivity. Qed.

(** C4.  The body of the unary minus, run on [vector2i(1, 2)] at address 1:
    the result is a reference to that same object, whose elements have been
    overwritten with [(-1, -2)]; no new vector is produced. *)
Theorem negation_overwrites_its_operand :
  operator_negate (T := c_int) (Dimension := 2) (Defaulted eq_refl)
    1%positive (Vector [7; 7]%Z) {[ 1%positive := Vector [1; 2]%Z ]}
  = Returns (1%positive, {[ 1%positive := Vector [-1; -2]%Z ]}).
Proof. vm_compute. reflexivity. Qed.

(** In general the operand's slot [i] ends as [self[i] * -1], taken back
    into [T], and the reference returned is [this]. *)
Lemma operator_negate_run {T R : Type} {Dimension : nat}
    `{Convertible c_int T} `{Promotes T c_int R} (how : assignment R T)
    (σ : gmap addr (vector T Dimension)) (this : addr)
    (self : vector T Dimension) (result : vector R Dimension) :
  σ !! this = Some self → well_formed self → well_formed result →
  operator_negate how this result σ
  = Returns (this,
      <[this := Vector (assigned how
                          <$> ((λ x, times x (-1)%Z) <$> data_ self))]> σ).
Proof.
  intros Hself Hwf Hres.
  unfold operator_negate, mbind, exec_bind, deref, allocate. rewrite Hself.
  rewrite operator_times_data by done.
  rewrite (assign_temporary_run how σ _ _ self); try done.
  - unfold well_formed in *. simpl. by rewrite length_fmap.
  - by eapply fresh_not_allocated.
Qed.

(** ** The comma initializer *)

(** [xs] written over [data] from [index] on. *)
Lemma insert_then_rest {A : Type} (data : list A) (index : nat) (x : A)
    (xs : list A) :
  index < length data →
  take (S index) (<[index := x]> data) ++ xs
    ++ drop (S index + length xs) (<[index := x]> data)
  = take index data ++ (x :: xs) ++ drop (index + length (x :: xs)) data.
Proof.
  intros Hi. rewrite take_succ_insert by done.
  rewrite drop_insert_lt by lia.
  rewrite <- app_assoc. simpl. by rewrite Nat.add_succ_r.
Qed.

Lemma write_twice {A : Type} (data : list A) (index : nat) (xs ys : list A) :
  index + length xs ≤ length data →
  let data' := take index data ++ xs ++ drop (index + length xs) data in
  take (index + length xs) data' ++ ys
    ++ drop (index + length xs + length ys) data'
  = take index data ++ (xs ++ ys)
      ++ drop (index + length (xs ++ ys)) data.
Proof.
  intros Hlen. cbv zeta.
  assert (Htake : length (take index data) = index)
    by (rewrite length_take; lia).
  rewrite (app_assoc (take index data) xs).
  rewrite take_app_length' by (rewrite length_app; lia).
  rewrite drop_app_ge by (rewrite length_app; lia).
  rewrite length_app, Htake, drop_drop, length_app.
  rewrite <- !app_assoc. do 3 f_equal. f_equal. lia.
Qed.

Section comma_initializer_facts.
Context {T : Type} {Dimension : nat}.

Local Abbreviation store := (gmap addr (vector T Dimension)).

Lemma written_nothing (σ : store) (vec : addr) (v : vector T Dimension)
    (index : nat) :
  σ !! vec = Some v → written σ vec (data_ v) index [] = σ.
Proof.
  intros Hv. unfold written. simpl. rewrite Nat.add_0_r, take_drop.
  apply insert_id. by destruct v.
Qed.

Lemma operator_comma_overflow {T2 : Type} {conv : Convertible T2 T}
    (this : comma_initializer) (val : T2) (σ : store) :
  Dimension ≤ index_ this → operator_comma this val σ = AssertionFailed.
Proof.
  intros Hge. unfold operator_comma, mbind, exec_bind, assert.
  by rewrite bool_decide_eq_false_2 by lia.
Qed.

Lemma operator_comma_run {T2 : Type} {conv : Convertible T2 T}
    (vec : addr) (index : nat) (val : T2) (σ : store)
    (v : vector T Dimension) :
  σ !! vec = Some v → well_formed v → index < Dimension →
  operator_comma (CommaInitializer vec index) val σ
  = Returns (CommaInitializer vec (S index),
             <[vec := Vector (<[index := static_cast val]> (data_ v))]> σ).
Proof.
  unfold well_formed. intros Hv Hwf Hi.
  unfold operator_comma, subscript, store_to, mbind, exec_bind, assert,
    deref, mret, exec_ret, write. simpl.
  rewrite bool_decide_eq_true_2 by done. simpl.
  rewrite Hv. by rewrite decide_True by lia.
Qed.

(** With a reference that has outlived its vector the append passes its
    assertion, when there is room, and then writes through the reference. *)
Lemma operator_comma_dangling {T2 : Type} {conv : Convertible T2 T}
    (vec : addr) (index : nat) (val : T2) (σ : store) :
  σ !! vec = None →
  operator_comma (CommaInitializer vec index) val σ
  = if decide (index < Dimension) then Undefined else AssertionFailed.
Proof.
  intros Hv. destruct (decide (index < Dimension)) as [Hi|Hi].
  - unfold operator_comma, subscript, store_to, mbind, exec_bind, assert,
      deref, mret, exec_ret. simpl.
    rewrite bool_decide_eq_true_2 by done. simpl. by rewrite Hv.
  - apply operator_comma_overflow. simpl. lia.
Qed.

Lemma for_each_elem_run {T2 : Type} {conv : Convertible T2 T}
    (vec : addr) (elems : list T2) :
  ∀ (index : nat) (σ : store) (v : vector T Dimension),
    σ !! vec = Some v → well_formed v → index ≤ Dimension →
    for_each_elem (CommaInitializer vec index) elems σ
    = if decide (index + length elems ≤ Dimension)
      then Returns (CommaInitializer vec (index + length elems),
                    written σ vec (data_ v) index (static_cast <$> elems))
      else AssertionFailed.
Proof.
  induction elems as [|elem elems IH]; intros index σ v Hv Hwf Hi.
  - simpl. rewrite decide_True by lia. rewrite Nat.add_0_r.
    change (static_cast <$> []) with (@nil T).
    by rewrite (written_nothing σ vec v).
  - cbn [for_each_elem]. unfold mbind, exec_bind.
    destruct (decide (index < Dimension)) as [Hlt|Hge].
    + rewrite (operator_comma_run vec index elem σ v) by done.
      rewrite (IH (S index) _ (Vector (<[index := static_cast elem]> (data_ v))));
        [|apply lookup_insert_eq
         |unfold well_formed in *; simpl; by rewrite length_insert
         |lia].
      cbn [length]. rewrite Nat.add_succ_r. cbn [Nat.add].
      destruct (decide (S (index + length elems) ≤ Dimension)); [|done].
      unfold written. rewrite insert_insert_eq. cbn [data_].
      rewrite <- (length_fmap static_cast elems).
      rewrite insert_then_rest by (unfold well_formed in Hwf; lia).
      rewrite fmap_cons. cbn [length]. rewrite !length_fmap.
      by rewrite Nat.add_succ_r.
    + rewrite operator_comma_overflow by (simpl; lia).
      rewrite decide_False; [done|]. simpl. lia.
Qed.

Lemma for_each_elem_dangling {T2 : Type} {conv : Convertible T2 T}
    (vec : addr) (index : nat) (elems : list T2) (σ : store) :
  σ !! vec = None →
  for_each_elem (CommaInitializer vec index) elems σ
  = match elems with
    | [] => Returns (CommaInitializer vec index, σ)
    | _ :: _ =>
        if decide (index < Dimension) then Undefined else AssertionFailed
    end.
Proof.
  intros Hv. destruct elems as [|elem elems]; [done|].
  cbn [for_each_elem]. unfold mbind, exec_bind.
  rewrite operator_comma_dangling by done.
  by destruct (decide (index < Dimension)).
Qed.

Lemma comma_dropped (this : comma_initializer) (val : operand T)
    (σ : store) :
  accepted (Dimension := Dimension) val = false →
  comma this val σ = Returns (None, σ).
Proof.
  destruct val as [T2 conv val|T2 D2 conv other]; [done|].
  cbn [accepted comma]. intros Hno.
  apply bool_decide_eq_false in Hno. by rewrite decide_False.
Qed.

Lemma comma_run (vec : addr) (index : nat) (val : operand T) (σ : store)
    (v : vector T Dimension) :
  σ !! vec = Some v → well_formed v → index ≤ Dimension →
  accepted (Dimension := Dimension) val = true →
  comma (CommaInitializer vec index) val σ
  = if decide (index + length (supplied val) ≤ Dimension)
    then Returns (Some (CommaInitializer vec
                          (index + length (supplied val))),
                  written σ vec (data_ v) index (supplied val))
    else AssertionFailed.
Proof.
  intros Hv Hwf Hi Hyes. destruct val as [T2 conv val|T2 D2 conv other].
  - cbn [comma supplied length]. unfold mbind, exec_bind.
    destruct (decide (index < Dimension)) as [Hlt|Hge].
    + rewrite (operator_comma_run vec index val σ v) by done.
      rewrite decide_True by lia. unfold written.
      rewrite insert_take_drop by (unfold well_formed in Hwf; lia).
      by rewrite !Nat.add_1_r.
    + rewrite operator_comma_overflow by (simpl; lia).
      by rewrite decide_False by lia.
  - cbn [accepted] in Hyes. apply bool_decide_eq_true in Hyes.
    cbn [comma]. rewrite decide_True by done.
    unfold mbind, exec_bind, operator_comma_vector.
    rewrite (for_each_elem_run vec (data_ other) index σ v) by done.
    cbn [supplied]. rewrite length_fmap.
    by destruct (decide (index + length (data_ other) ≤ Dimension)).
Qed.

(** The same on a reference that has outlived its vector. *)
Lemma comma_dangling (vec : addr) (index : nat) (val : operand T)
    (σ : store) :
  σ !! vec = None →
  accepted (Dimension := Dimension) val = true →
  comma (CommaInitializer vec index) val σ
  = match supplied val with
    | [] => Returns (Some (CommaInitializer vec index), σ)
    | _ :: _ =>
        if decide (index < Dimension) then Undefined else AssertionFailed
    end.
Proof.
  intros Hv Hyes. destruct val as [T2 conv val|T2 D2 conv other].
  - cbn [comma supplied]. unfold mbind, exec_bind.
    rewrite operator_comma_dangling by done.
    by destruct (decide (index < Dimension)).
  - cbn [accepted] in Hyes. apply bool_decide_eq_true in Hyes.
    cbn [comma supplied]. rewrite decide_True by done.
    unfold mbind, exec_bind, operator_comma_vector.
    rewrite for_each_elem_dangling by done.
    destruct (data_ other) as [|elem elems]; [done|].
    by destruct (decide (index < Dimension)).
Qed.

Lemma chain_run (vec : addr) (vals : list (operand T)) :
  ∀ (index : nat) (σ : store) (v : vector T Dimension),
    σ !! vec = Some v → well_formed v → index ≤ Dimension →
    chain (CommaInitializer vec index) vals σ
    = if decide (index + length (taken_after (Dimension := Dimension) vals)
                 ≤ Dimension)
      then Returns (CommaInitializer vec
                      (index + length (taken_after (Dimension := Dimension)
                                         vals)),
                    written σ vec (data_ v) index
                      (taken_after (Dimension := Dimension) vals))
      else AssertionFailed.
Proof.
  induction vals as [|val vals IH]; intros index σ v Hv Hwf Hi.
  - simpl. rewrite decide_True by lia. rewrite Nat.add_0_r.
    by rewrite (written_nothing σ vec v).
  - cbn [chain taken_after]. unfold mbind at 1, exec_bind at 1.
    destruct (accepted val) eqn:Hyes.
    + rewrite (comma_run vec index val σ v) by done.
      rewrite length_app.
      destruct (decide (index + length (supplied val) ≤ Dimension))
        as [Hfit|Hover].
      * unfold written at 1.
        erewrite IH; [|apply lookup_insert_eq| |lia].
        -- rewrite Nat.add_assoc.
           destruct (decide (index + length (supplied val)
                             + length (taken_after vals) ≤ Dimension));
             [|done].
           unfold written. rewrite insert_insert_eq. cbn [data_].
           rewrite write_twice by (unfold well_formed in Hwf; lia).
           by rewrite length_app, Nat.add_assoc.
        -- unfold well_formed in *. cbn [data_].
           rewrite !length_app, length_take, length_drop. lia.
      * rewrite decide_False; [done|lia].
    + rewrite comma_dropped by done. cbn [length].
      rewrite decide_True by lia. rewrite Nat.add_0_r.
      by rewrite (written_nothing σ vec v).
Qed.

Lemma chain_dangling (vec : addr) (index : nat) (vals : list (operand T))
    (σ : store) :
  σ !! vec = None →
  chain (CommaInitializer vec index) vals σ
  = match taken_after (Dimension := Dimension) vals with
    | [] => Returns (CommaInitializer vec index, σ)
    | _ :: _ =>
        if decide (index < Dimension) then Undefined else AssertionFailed
    end.
Proof.
  intros Hv. induction vals as [|val vals IH]; [done|].
  cbn [chain taken_after]. unfold mbind, exec_bind.
  destruct (accepted val) eqn:Hyes.
  - rewrite comma_dangling by done.
    destruct (supplied val) as [|x xs]; [by rewrite IH|].
    by destruct (decide (index < Dimension)).
  - by rewrite comma_dropped by done.
Qed.

Lemma comma_initializer_new_run (vec : addr) (first : operand T)
    (σ : store) (v : vector T Dimension) :
  σ !! vec = Some v → well_formed v →
  comma_initializer_new vec first σ
  = if decide (length (taken_first (Dimension := Dimension) first)
               ≤ Dimension)
    then Returns (CommaInitializer vec
                    (length (taken_first (Dimension := Dimension) first)),
                  written σ vec (data_ v) 0
                    (taken_first (Dimension := Dimension) first))
    else AssertionFailed.
Proof.
  intros Hv Hwf. unfold comma_initializer_new, taken_first, mbind, exec_bind.
  destruct (accepted first) eqn:Hyes.
  - rewrite (comma_run vec 0 first σ v Hv Hwf (Nat.le_0_l _) Hyes).
    cbn [Nat.add]. by destruct (decide _).
  - rewrite comma_dropped by done. cbn [length].
    rewrite decide_True by lia. by rewrite (written_nothing σ vec v).
Qed.

(** The statement as a whole, by the number of scalars the initializer
    takes. *)
Lemma build_run (vec : addr) (first : operand T) (vals : list (operand T))
    (σ : store) (v : vector T Dimension) :
  σ !! vec = Some v → well_formed v →
  let taken := taken_first (Dimension := Dimension) first
                 ++ taken_after (Dimension := Dimension) vals in
  build vec first vals σ
  = if decide (length taken = Dimension)
    then Returns ((), <[vec := Vector taken]> σ)
    else AssertionFailed.
Proof.
  intros Hv Hwf taken. subst taken. rewrite length_app.
  unfold build, operator_shl. unfold mbind at 1, exec_bind at 1.
  rewrite (comma_initializer_new_run vec first σ v) by done.
  destruct (decide (length (taken_first first) ≤ Dimension)) as [Hfit|Hover];
    [|by rewrite decide_False by lia].
  unfold mbind, exec_bind. unfold written at 1.
  erewrite chain_run; [|apply lookup_insert_eq| |done].
  - cbn [Nat.add take app data_].
    destruct (decide (length (taken_first first)
                      + length (taken_after vals) ≤ Dimension))
      as [Hle|Hgt]; [|by rewrite decide_False by lia].
    unfold comma_initializer_delete, assert. cbn [index_].
    destruct (decide (length (taken_first first)
                      + length (taken_after vals) = Dimension))
      as [Heq|Hne].
    + rewrite bool_decide_eq_true_2 by done.
      unfold written. rewrite insert_insert_eq. cbn [data_].
      pose proof (write_twice (data_ v) 0
                    (taken_first (Dimension := Dimension) first)
                    (taken_after (Dimension := Dimension) vals)) as Htwice.
      cbn [Nat.add] in Htwice.
      rewrite Htwice by (unfold well_formed in Hwf; lia).
      rewrite take_0. cbn [app].
      rewrite drop_ge
        by (unfold well_formed in Hwf; rewrite length_app; lia).
      by rewrite app_nil_r.
    + by rewrite bool_decide_eq_false_2 by done.
  - unfold well_formed in *. cbn [data_ Nat.add].
    rewrite take_0, !length_app, length_drop. cbn [length]. lia.
Qed.

Lemma taken_after_accepted (vals : list (operand T)) :
  Forall (λ val, accepted (Dimension := Dimension) val = true) vals →
  taken_after (Dimension := Dimension) vals = stream vals.
Proof.
  induction 1 as [|val vals Hyes _ IH]; [done|].
  cbn [taken_after]. rewrite Hyes, IH. done.
Qed.

Lemma taken_accepted (first : operand T) (vals : list (operand T)) :
  Forall (λ val, accepted (Dimension := Dimension) val = true)
    (first :: vals) →
  taken_first (Dimension := Dimension) first
    ++ taken_after (Dimension := Dimension) vals
  = stream (first :: vals).
Proof.
  intros Hall. apply Forall_cons in Hall as [Hfirst Hvals].
  unfold taken_first. by rewrite Hfirst, taken_after_accepted.
Qed.

(** The by-value overload, up to its return and as a whole. *)
Lemma operator_shl_by_value_body_run {T2 : Type} {Dimension2 : nat}
    {conv : Convertible T2 T} (arg : addr) (other : vector T2 Dimension2)
    (σ : store) (v : vector T Dimension) :
  σ !! arg = Some v → well_formed v →
  let taken := taken_first (Dimension := Dimension) (Vec other) in
  operator_shl_by_value_body arg other σ
  = if decide (length taken ≤ Dimension)
    then Returns (CommaInitializer (fresh (dom σ)) (length taken),
                  written (<[fresh (dom σ) := v]> σ) (fresh (dom σ))
                    (data_ v) 0 taken)
    else AssertionFailed.
Proof.
  intros Hv Hwf taken. subst taken.
  unfold operator_shl_by_value_body, mbind, exec_bind, deref, allocate,
    write. rewrite Hv.
  by rewrite (comma_initializer_new_run _ (Vec other) _ v
                (lookup_insert_eq _ _ _) Hwf).
Qed.

Lemma operator_shl_by_value_run {T2 : Type} {Dimension2 : nat}
    {conv : Convertible T2 T} (arg : addr) (other : vector T2 Dimension2)
    (σ : store) (v : vector T Dimension) :
  σ !! arg = Some v → well_formed v →
  let taken := taken_first (Dimension := Dimension) (Vec other) in
  operator_shl_by_value arg other σ
  = if decide (length taken ≤ Dimension)
    then Returns (CommaInitializer (fresh (dom σ)) (length taken), σ)
    else AssertionFailed.
Proof.
  intros Hv Hwf taken. subst taken.
  assert (Hnew : σ !! fresh (dom σ) = None).
  { apply not_elem_of_dom. apply is_fresh. }
  unfold operator_shl_by_value. unfold mbind at 1, exec_bind at 1.
  rewrite (operator_shl_by_value_body_run arg other σ v) by done.
  destruct (decide _); [|done].
  unfold mbind, exec_bind, release, written. cbn [vec_].
  rewrite delete_insert_eq, delete_insert_eq. by rewrite delete_id.
Qed.

Lemma build_by_value_run {T2 : Type} {Dimension2 : nat}
    {conv : Convertible T2 T} (arg : addr) (other : vector T2 Dimension2)
    (vals : list (operand T)) (σ : store) (v : vector T Dimension) :
  σ !! arg = Some v → well_formed v →
  let taken := taken_first (Dimension := Dimension) (Vec other) in
  build_by_value arg other vals σ
  = if decide (length taken ≤ Dimension)
    then match taken_after (Dimension := Dimension) vals with
         | [] =>
             if decide (length taken = Dimension)
             then Returns ((), σ) else AssertionFailed
         | _ :: _ =>
             if decide (length taken < Dimension)
             then Undefined else AssertionFailed
         end
    else AssertionFailed.
Proof.
  intros Hv Hwf taken. subst taken.
  assert (Hnew : σ !! fresh (dom σ) = None).
  { apply not_elem_of_dom. apply is_fresh. }
  unfold build_by_value. unfold mbind at 1, exec_bind at 1.
  rewrite (operator_shl_by_value_run arg other σ v) by done.
  destruct (decide (length (taken_first (Vec other)) ≤ Dimension));
    [|done].
  unfold mbind, exec_bind. rewrite chain_dangling by done.
  destruct (taken_after vals) as [|x xs].
  - unfold comma_initializer_delete, assert. cbn [index_].
    destruct (decide (length (taken_first (Vec other)) = Dimension)).
    + by rewrite bool_decide_eq_true_2.
    + by rewrite bool_decide_eq_false_2.
  - by destruct (decide (length (taken_first (Vec other)) < Dimension)).
Qed.
End comma_initializer_facts.

Section comma_initializer_claims.
Context {T : Type} {Dimension : nat}.

Local Abbreviation store := (gmap addr (vector T Dimension)).

(** C2, as amended.  A chained build started through [operator<<] by
    reference, which is every build but those whose first operand is an
    rvalue vector, whose operands are scalars and vectors of no more than
    [Dimension] elements and supply [Dimension] scalars in all, a vector
    operand counting as its elements in index order, returns and leaves the
    [i]-th supplied scalar, converted to [T], in slot [i] of the target, for
    every [i] below [Dimension]. *)
Theorem chained_build_fills_in_order (σ : store) (vec : addr)
    (v : vector T Dimension) (first : operand T) (vals : list (operand T)) :
  σ !! vec = Some v → well_formed v →
  Forall (λ val, accepted (Dimension := Dimension) val = true)
    (first :: vals) →
  length (stream (first :: vals)) = Dimension →
  ∃ v' : vector T Dimension,
    well_formed v' ∧
    (∀ i, i < Dimension → data_ v' !! i = stream (first :: vals) !! i) ∧
    build vec first vals σ = Returns ((), <[vec := v']> σ).
Proof.
  intros Hv Hwf Hall Hlen. exists (Vector (stream (first :: vals))).
  split; [done|]. split; [done|].
  rewrite (build_run vec first vals σ v) by done.
  rewrite (taken_accepted first vals Hall).
  by rewrite decide_True by done.
Qed.


End comma_initializer_claims.

(** A [vector2d(4, 5)], as an lvalue, and then the [int] 6 into a
    [vector3d]. *)
Lemma chained_build_fills_in_order_witness :
  let σ : gmap addr vector3d := {[ 1%positive := Vector [7; 8; 9]%float ]} in
  let other : vector2d := Vector [4; 5]%float in
  let vals : list (operand c_double) := [Scalar 6%Z] in
  σ !! 1%positive = Some (Vector [7; 8; 9]%float) ∧
  well_formed (Vector [7; 8; 9]%float : vector3d) ∧
  Forall (λ val, accepted (Dimension := 3) val = true) (Vec other :: vals) ∧
  length (stream (Vec other :: vals)) = 3 ∧
  ∃ v' : vector3d,
    well_formed v' ∧
    (∀ i, i < 3 → data_ v' !! i = stream (Vec other :: vals) !! i) ∧
    build 1%positive (Vec other) vals σ
      = Returns ((), <[1%positive := v']> σ).
Proof.
  intros σ other vals.
  assert (H1 : σ !! 1%positive = Some (Vector [7; 8; 9]%float))
    by reflexivity.
  assert (H2 : well_formed (Vector [7; 8; 9]%float : vector3d))
    by reflexivity.
  assert (H3 : Forall (λ val, accepted (Dimension := 3) val = true)
                 (Vec other :: vals))
    by (repeat constructor).
  assert (H4 : length (stream (Vec other :: vals)) = 3) by reflexivity.
  exact (conj H1 (conj H2 (conj H3 (conj H4
    (chained_build_fills_in_order σ 1%positive _ (Vec other) vals
       H1 H2 H3 H4))))).
Defined.

(** The statement [v << vector2i(4, 5);] on a [vector2i] holding [(7, 8)]
    supplies the two scalars the vector has room for.  Its first operand is
    an rvalue vector, so it goes through the by-value overload: it returns,
    and slot 0 of the target holds 7, not the first scalar supplied. *)
Lemma chained_build_by_value_misses_target :
  let σ : gmap addr vector2i := {[ 1%positive := Vector [7; 8]%Z ]} in
  let other : vector2i := Vector [4; 5]%Z in
  length (stream [Vec other : operand c_int]) = 2 ∧
  build_by_value 1%positive other [] σ = Returns ((), σ) ∧
  σ !! 1%positive = Some (Vector [7; 8]%Z) ∧
  ¬ ∃ v' : vector2i,
      build_by_value 1%positive other [] σ
        = Returns ((), <[1%positive := v']> σ) ∧
      ∀ i, i < 2 →
           data_ v' !! i = stream [Vec other : operand c_int] !! i.
Proof.
  intros σ other.
  assert (Hrun : build_by_value 1%positive other [] σ = Returns ((), σ))
    by (vm_compute; reflexivity).
  assert (Hσ : σ !! 1%positive = Some (Vector [7; 8]%Z)) by reflexivity.
  split; [reflexivity|]. split; [exact Hrun|]. split; [exact Hσ|].
  intros (v' & Hret & Hslots). rewrite Hrun in Hret. clearbody σ.
  assert (Hsame : σ = <[1%positive := v']> σ) by congruence.
  assert (Hv' : σ !! 1%positive = Some v')
    by (rewrite Hsame; apply lookup_insert_eq).
  specialize (Hslots 0 (Nat.lt_0_succ 1)).
  pose proof (eq_trans (eq_sym Hσ) Hv') as Hheld.
  injection Hheld as Hheld. rewrite <- Hheld in Hslots.
  discriminate Hslots.
Qed.

(** Three scalars fill a three-dimensional vector; an lvalue vector of two
    and one scalar do as well. *)
Example build_three :
  let σ : gmap addr vector3d := {[ 1%positive := Vector [7; 8; 9]%float ]} in
  build 1%positive (Scalar 1%float) [Scalar 2%float; Scalar 3%float] σ
    = Returns ((), {[ 1%positive := Vector [1; 2; 3]%float ]}) ∧
  build 1%positive (Vec (Vector [4; 5]%float : vector2d)) [Scalar 6%Z] σ
    = Returns ((), {[ 1%positive := Vector [4; 5; 6]%float ]}).
Proof. split; vm_compute; reflexivity. Qed.

(** Two scalars, or four, do not.  A vector of four after three scalars is
    discarded by the built-in comma, and so is the scalar after it. *)
Example build_two_or_four :
  let σ : gmap addr vector3d := {[ 1%positive := Vector [7; 8; 9]%float ]} in
  let big : vector c_double 4 := Vector [4; 5; 6; 7]%float in
  build 1%positive (Scalar 1%float) [Scalar 2%float] σ = AssertionFailed ∧
  build 1%positive (Scalar 1%float)
    [Scalar 2%float; Scalar 3%float; Scalar 4%float] σ = AssertionFailed ∧
  build 1%positive (Scalar 1%float)
    [Scalar 2%float; Scalar 3%float; Vec big; Scalar 4%float] σ
    = Returns ((), {[ 1%positive := Vector [1; 2; 3]%float ]}) ∧
  build 1%positive (Scalar 1%float) [Vec big; Scalar 2%float;
                                     Scalar 3%float] σ
    = AssertionFailed.
Proof. repeat split; vm_compute; reflexivity. Qed.




(** The same operands, a vector of two and a scalar, by reference: the
    target is filled. *)
Example by_reference_fills :
  let σ : gmap addr vector3d := {[ 1%positive := Vector [7; 8; 9]%float ]} in
  let other : vector2d := Vector [4; 5]%float in
  build 1%positive (Vec other) [Scalar 6%Z] σ
    = Returns ((), {[ 1%positive := Vector [4; 5; 6]%float ]}).
Proof. vm_compute. reflexivity. Qed.

(** * Further properties of the members *)

(** ** Element access *)

Section element_access.
Context {T : Type} {Dimension : nat}.

Local Abbreviation store := (gmap addr (vector T Dimension)).

Lemma subscript_load_out_of_range (σ : store) (this : addr) (i : nat) :
  Dimension ≤ i → (slot ← subscript this i; load slot) σ = AssertionFailed.
Proof.
  intros Hi. unfold subscript, mbind, exec_bind, assert.
  by rewrite bool_decide_eq_false_2 by lia.
Qed.

(** X1.  On a vector that holds its [Dimension] elements, either
    [operator[]] fails its assertion exactly for the indices from
    [Dimension] on, and returns the element, leaving the store alone, for the
    indices below. *)
Theorem subscript_checks_bounds (σ : store) (this : addr)
    (v : vector T Dimension) (i : nat) :
  σ !! this = Some v → well_formed v →
  (subscript_const v i = AssertionFailed ↔ Dimension ≤ i) ∧
  ((slot ← subscript this i; load slot) σ = AssertionFailed
   ↔ Dimension ≤ i) ∧
  (i < Dimension →
   ∃ a, data_ v !! i = Some a ∧
        subscript_const v i = Returns a ∧
        (slot ← subscript this i; load slot) σ = Returns (a, σ)).
Proof.
  intros Hv Hwf.
  assert (Hin : i < Dimension →
    ∃ a, data_ v !! i = Some a ∧
         subscript_const v i = Returns a ∧
         (slot ← subscript this i; load slot) σ = Returns (a, σ)).
  { intros Hi. destruct (lookup_lt_is_Some_2 (data_ v) i) as [a Ha].
    { unfold well_formed in Hwf. lia. }
    exists a. split; [done|]. split.
    - unfold subscript_const. rewrite decide_True by done. by rewrite Ha.
    - by apply (subscript_load_run σ this v). }
  split; [|split; [|done]].
  - split.
    + intros Hfail. destruct (decide (i < Dimension)) as [Hi|Hi]; [|lia].
      destruct (Hin Hi) as (a & _ & Hret & _). congruence.
    + intros Hi. unfold subscript_const. by rewrite decide_False by lia.
  - split.
    + intros Hfail. destruct (decide (i < Dimension)) as [Hi|Hi]; [|lia].
      destruct (Hin Hi) as (a & _ & _ & Hret). congruence.
    + apply subscript_load_out_of_range.
Qed.

(** X2.  After [v[i] = a], with [i] below [Dimension], the vector still has
    its [Dimension] elements, [v[i]] reads [a], every other index reads what
    it read before, and no other object has changed. *)
Theorem element_assignment_round_trip (σ : store) (this : addr)
    (v : vector T Dimension) (i j : nat) (a : T) :
  σ !! this = Some v → well_formed v → i < Dimension →
  ∃ v' : vector T Dimension,
    (slot ← subscript this i; store_to slot a) σ
      = Returns ((), <[this := v']> σ) ∧
    well_formed v' ∧
    subscript_const v' j
      = if decide (i = j) then Returns a else subscript_const v j.
Proof.
  unfold well_formed. intros Hv Hwf Hi.
  exists (Vector (<[i := a]> (data_ v))). split; [|split].
  - unfold subscript, store_to, mbind, exec_bind, assert, deref, mret,
      exec_ret, write. rewrite bool_decide_eq_true_2 by done. simpl.
    rewrite Hv. by rewrite decide_True by lia.
  - simpl. by rewrite length_insert.
  - unfold subscript_const. simpl.
    destruct (decide (i = j)) as [<-|Hne].
    + rewrite decide_True by done.
      by rewrite list_lookup_insert_eq by lia.
    + by rewrite list_lookup_insert_ne by done.
Qed.

(** X3.  With the two elements the class asks for, [x()] and [y()] return
    what [operator[]] returns at 0 and 1, which is an element; so do [z()]
    and [w()] at 2 and 3 in the dimensions that have them. *)
Theorem accessors_read_the_first_slots (v : vector T Dimension) :
  well_formed v → 2 ≤ Dimension →
  (∃ a b, member.x v = Returns a ∧ member.y v = Returns b) ∧
  member.x v = subscript_const v 0 ∧
  member.y v = subscript_const v 1 ∧
  (3 ≤ Dimension → member.z v = subscript_const v 2) ∧
  (4 ≤ Dimension → member.w v = subscript_const v 3).
Proof.
  unfold well_formed. intros Hwf Hdim.
  assert (Hsame : ∀ i, i < Dimension →
            array_at (data_ v) i = subscript_const v i).
  { intros i Hi. unfold subscript_const. by rewrite decide_True by done. }
  split; [|split; [|split; [|split]]].
  - destruct v as [[|a [|b data]]]; simpl in *; try lia.
    by exists a, b.
  - apply Hsame. lia.
  - apply Hsame. lia.
  - intros Hz. apply Hsame. lia.
  - intros Hw. apply Hsame. lia.
Qed.
End element_access.

Lemma subscript_checks_bounds_witness :
  let σ : gmap addr vector2i := {[ 1%positive := Vector [1; 5]%Z ]} in
  let v : vector2i := Vector [1; 5]%Z in
  σ !! 1%positive = Some v ∧ well_formed v ∧
  (subscript_const v 2 = AssertionFailed ↔ 2 ≤ 2) ∧
  ((slot ← subscript 1%positive 2; load slot) σ = AssertionFailed
   ↔ 2 ≤ 2) ∧
  (2 < 2 →
   ∃ a, data_ v !! 2 = Some a ∧
        subscript_const v 2 = Returns a ∧
        (slot ← subscript 1%positive 2; load slot) σ = Returns (a, σ)).
Proof.
  intros σ v.
  assert (H1 : σ !! 1%positive = Some v) by reflexivity.
  assert (H2 : well_formed v) by reflexivity.
  exact (conj H1 (conj H2 (subscript_checks_bounds σ 1%positive v 2 H1 H2))).
Defined.

Lemma element_assignment_round_trip_witness :
  let σ : gmap addr vector2i := {[ 1%positive := Vector [1; 5]%Z ]} in
  let v : vector2i := Vector [1; 5]%Z in
  σ !! 1%positive = Some v ∧ well_formed v ∧ 1 < 2 ∧
  ∃ v' : vector2i,
    (slot ← subscript 1%positive 1; store_to slot 9%Z) σ
      = Returns ((), <[1%positive := v']> σ) ∧
    well_formed v' ∧
    subscript_const v' 0
      = if decide (1 = 0) then Returns 9%Z else subscript_const v 0.
Proof.
  intros σ v.
  assert (H1 : σ !! 1%positive = Some v) by reflexivity.
  assert (H2 : well_formed v) by reflexivity.
  assert (H3 : 1 < 2) by lia.
  exact (conj H1 (conj H2 (conj H3
    (element_assignment_round_trip σ 1%positive v 1 0 9%Z H1 H2 H3)))).
Defined.

Lemma accessors_read_the_first_slots_witness :
  let v : vector3d := Vector [1; 2; 3]%float in
  well_formed v ∧ 2 ≤ 3 ∧
  (∃ a b, member.x v = Returns a ∧ member.y v = Returns b) ∧
  member.x v = subscript_const v 0 ∧
  member.y v = subscript_const v 1 ∧
  (3 ≤ 3 → member.z v = subscript_const v 2) ∧
  (4 ≤ 3 → member.w v = subscript_const v 3).
Proof.
  intros v.
  assert (H1 : well_formed v) by reflexivity.
  assert (H2 : 2 ≤ 3) by lia.
  exact (conj H1 (conj H2 (accessors_read_the_first_slots v H1 H2))).
Defined.

(** ** The defaulted and the converting assignment *)

(** X15.  From a distinct vector of the same element type and dimension the
    converting [operator=], its conversion the identity, ends as the
    defaulted copy assignment does: the target holds the source's
    elements. *)
Theorem converting_assignment_agrees_with_copy {T : Type} {Dimension : nat}
    `{Convertible c_int T} (σ : gmap addr (vector T Dimension))
    (this other_addr : addr) (self other : vector T Dimension) :
  σ !! this = Some self → well_formed self → well_formed other →
  this ≠ other_addr →
  assign_from (conv := λ a, a) this other_addr other σ
    = assign_default this other σ ∧
  assign_default this other σ = Returns (this, <[this := other]> σ).
Proof.
  intros Hself Hwf Hother Hne.
  rewrite (assign_from_run (conv := λ a, a) σ this other_addr self other)
    by done.
  rewrite (assign_default_run σ this self other) by done.
  split; [|done]. rewrite Nat.sub_diag. simpl.
  rewrite app_nil_r. unfold static_cast. rewrite list_fmap_id.
  by destruct other.
Qed.

Lemma converting_assignment_agrees_with_copy_witness :
  let σ : gmap addr vector2i := {[ 1%positive := Vector [1; 5]%Z ]} in
  let self : vector2i := Vector [1; 5]%Z in
  let other : vector2i := Vector [2; 0]%Z in
  σ !! 1%positive = Some self ∧ well_formed self ∧ well_formed other ∧
  1%positive ≠ 2%positive ∧
  assign_from (conv := λ a, a) 1%positive 2%positive other σ
    = assign_default 1%positive other σ ∧
  assign_default 1%positive other σ
    = Returns (1%positive, <[1%positive := other]> σ).
Proof.
  intros σ self other.
  assert (H1 : σ !! 1%positive = Some self) by reflexivity.
  assert (H2 : well_formed self) by reflexivity.
  assert (H3 : well_formed other) by reflexivity.
  assert (H4 : 1%positive ≠ 2%positive) by (intros; discriminate).
  exact (conj H1 (conj H2 (conj H3 (conj H4
    (converting_assignment_agrees_with_copy σ 1%positive 2%positive
       self other H1 H2 H3 H4))))).
Defined.

(** ** Elementwise arithmetic *)

Lemma comp_mult_data {T T2 R : Type} {Dimension : nat} `{Promotes T T2 R}
    (vec : vector T Dimension) (other : vector T2 Dimension)
    (result : vector R Dimension) :
  well_formed vec → well_formed other → well_formed result →
  comp_mult vec other result
  = Vector (zip_with times (data_ vec) (data_ other)).
Proof.
  unfold well_formed, comp_mult. intros Hvec Hother Hres.
  rewrite transform2_writes by (simpl; lia). simpl.
  rewrite drop_ge by lia. by rewrite app_nil_r.
Qed.

Section elementwise.
Context {T T2 R : Type} {Dimension : nat} `{Promotes T T2 R}.

(** X4.  [a + b], [a - b] and [comp_mult(a, b)] have [Dimension] elements,
    and slot [i] holds [a[i] + b[i]], [a[i] - b[i]] and [a[i] * b[i]],
    whatever the uninitialised [result] of each held. *)
Theorem binary_operators_elementwise (a : vector T Dimension)
    (b : vector T2 Dimension) (r1 r2 r3 : vector R Dimension) :
  well_formed a → well_formed b →
  well_formed r1 → well_formed r2 → well_formed r3 →
  well_formed (operator_plus a b r1) ∧
  well_formed (operator_minus a b r2) ∧
  well_formed (comp_mult a b r3) ∧
  ∀ i p q, data_ a !! i = Some p → data_ b !! i = Some q →
    data_ (operator_plus a b r1) !! i = Some (plus p q) ∧
    data_ (operator_minus a b r2) !! i = Some (minus p q) ∧
    data_ (comp_mult a b r3) !! i = Some (times p q).
Proof.
  intros Ha Hb Hr1 Hr2 Hr3.
  rewrite operator_plus_data, operator_minus_data, comp_mult_data by done.
  unfold well_formed in *. simpl.
  rewrite !length_zip_with.
  split; [lia|]. split; [lia|]. split; [lia|].
  intros i p q Hp Hq. by rewrite !lookup_zip_with, Hp, Hq.
Qed.
End elementwise.

Lemma binary_operators_elementwise_witness :
  let a : vector2i := Vector [2; 3]%Z in
  let b : vector2i := Vector [4; 5]%Z in
  let r : vector2i := Vector [7; 7]%Z in
  well_formed a ∧ well_formed b ∧
  well_formed r ∧ well_formed r ∧ well_formed r ∧
  well_formed (operator_plus a b r) ∧
  well_formed (operator_minus a b r) ∧
  well_formed (comp_mult a b r) ∧
  ∀ i p q, data_ a !! i = Some p → data_ b !! i = Some q →
    data_ (operator_plus a b r) !! i = Some (plus p q) ∧
    data_ (operator_minus a b r) !! i = Some (minus p q) ∧
    data_ (comp_mult a b r) !! i = Some (times p q).
Proof.
  intros a b r.
  assert (H1 : well_formed a) by reflexivity.
  assert (H2 : well_formed b) by reflexivity.
  assert (H3 : well_formed r) by reflexivity.
  exact (conj H1 (conj H2 (conj H3 (conj H3 (conj H3
    (binary_operators_elementwise a b r r r H1 H2 H3 H3 H3)))))).
Defined.

(** [comp_mult(vector2i(2, 3), vector2i(4, 5))] is [(8, 15)]. *)
Example comp_mult_vector2i :
  comp_mult (Vector [2; 3]%Z : vector2i) (Vector [4; 5]%Z : vector2i)
    (Vector [7; 7]%Z) = (Vector [8; 15]%Z : vector2i).
Proof. reflexivity. Qed.

Lemma zip_with_swap {A B : Type} (f : A → A → B) (xs : list A) :
  (∀ p q, f p q = f q p) → ∀ ys, zip_with f xs ys = zip_with f ys xs.
Proof.
  intros Hf. induction xs as [|p xs IH]; intros [|q ys]; simpl; try done.
  by rewrite Hf, IH.
Qed.

Lemma fmap_zip_with_distributes {A : Type} (f : A → A → A) (g : A → A)
    (xs : list A) :
  (∀ p q, g (f p q) = f (g p) (g q)) →
  ∀ ys, g <$> zip_with f xs ys = zip_with f (g <$> xs) (g <$> ys).
Proof.
  intros Hg. induction xs as [|p xs IH]; intros [|q ys]; simpl; try done.
  by rewrite Hg, IH.
Qed.

Section one_element_type.
Context {T : Type} {Dimension : nat} `{Promotes T T T}.

(** X5.  Where [+] and [*] of the element type commute, so do [a + b] and
    [comp_mult(a, b)]. *)
Theorem plus_and_comp_mult_commute (a b r r' : vector T Dimension) :
  (∀ p q : T, plus p q = plus q p) →
  (∀ p q : T, times p q = times q p) →
  well_formed a → well_formed b → well_formed r → well_formed r' →
  operator_plus a b r = operator_plus b a r' ∧
  comp_mult a b r = comp_mult b a r'.
Proof.
  intros Hplus Htimes Ha Hb Hr Hr'.
  rewrite !operator_plus_data, !comp_mult_data by done.
  by rewrite (zip_with_swap plus _ Hplus), (zip_with_swap times _ Htimes).
Qed.

(** X6.  Where [*] of the element type distributes over [+], scaling a sum
    is summing the scaled vectors: [(a + b) * s] is [a * s + b * s]. *)
Theorem scaling_distributes_over_plus (a b : vector T Dimension) (s : T)
    (r1 r2 r3 r4 r5 : vector T Dimension) :
  (∀ p q : T, times (plus p q) s = plus (times p s) (times q s)) →
  well_formed a → well_formed b →
  well_formed r1 → well_formed r2 → well_formed r3 → well_formed r4 →
  well_formed r5 →
  operator_times (operator_plus a b r1) s r2
  = operator_plus (operator_times a s r3) (operator_times b s r4) r5.
Proof.
  intros Hdist Ha Hb Hr1 Hr2 Hr3 Hr4 Hr5.
  rewrite (operator_plus_data a b r1) by done.
  rewrite (operator_times_data a s r3), (operator_times_data b s r4) by done.
  unfold well_formed in *.
  rewrite operator_times_data, operator_plus_data;
    unfold well_formed; simpl;
    rewrite ?length_zip_with, ?length_fmap; try lia.
  f_equal. simpl.
  by apply (fmap_zip_with_distributes plus (λ v, times v s)).
Qed.
End one_element_type.

(** [int] arithmetic is arithmetic modulo [2 ^ 32]. *)
Lemma wrap_int_congruent (a b : Z) :
  (a mod 2 ^ 32 = b mod 2 ^ 32)%Z → wrap_int a = wrap_int b.
Proof.
  intros Hab. unfold wrap_int. f_equal.
  rewrite <- (Z.add_mod_idemp_l a), <- (Z.add_mod_idemp_l b) by lia.
  by rewrite Hab.
Qed.

Lemma wrap_int_mod (a : Z) : (wrap_int a mod 2 ^ 32 = a mod 2 ^ 32)%Z.
Proof.
  unfold wrap_int. rewrite Zminus_mod_idemp_l. f_equal. lia.
Qed.

Lemma wrap_int_in_range (a : Z) : int_range a → wrap_int a = a.
Proof.
  unfold int_range, wrap_int. intros Ha.
  rewrite Z.mod_small; lia.
Qed.

Lemma int_times_distributes (p q s : c_int) :
  times (plus p q) s = plus (times p s) (times q s).
Proof.
  simpl. apply wrap_int_congruent.
  rewrite Z.add_mod, !wrap_int_mod, <- Z.add_mod by lia.
  rewrite Z.mul_mod, wrap_int_mod, <- Z.mul_mod by lia.
  f_equal. lia.
Qed.

Lemma plus_and_comp_mult_commute_witness :
  let a : vector2i := Vector [2; 3]%Z in
  let b : vector2i := Vector [4; 5]%Z in
  let r : vector2i := Vector [7; 7]%Z in
  let r' : vector2i := Vector [0; 0]%Z in
  (∀ p q : c_int, plus p q = plus q p) ∧
  (∀ p q : c_int, times p q = times q p) ∧
  well_formed a ∧ well_formed b ∧ well_formed r ∧ well_formed r' ∧
  operator_plus a b r = operator_plus b a r' ∧
  comp_mult a b r = comp_mult b a r'.
Proof.
  intros a b r r'.
  assert (H1 : ∀ p q : c_int, plus p q = plus q p)
    by (intros p q; simpl; f_equal; lia).
  assert (H2 : ∀ p q : c_int, times p q = times q p)
    by (intros p q; simpl; f_equal; lia).
  assert (H3 : well_formed a) by reflexivity.
  assert (H4 : well_formed b) by reflexivity.
  assert (H5 : well_formed r) by reflexivity.
  assert (H6 : well_formed r') by reflexivity.
  exact (conj H1 (conj H2 (conj H3 (conj H4 (conj H5 (conj H6
    (plus_and_comp_mult_commute a b r r' H1 H2 H3 H4 H5 H6))))))).
Defined.

Lemma scaling_distributes_over_plus_witness :
  let a : vector2i := Vector [2; 3]%Z in
  let b : vector2i := Vector [4; 5]%Z in
  let r : vector2i := Vector [7; 7]%Z in
  (∀ p q : c_int, times (plus p q) 3%Z
                  = plus (times p 3%Z) (times q 3%Z)) ∧
  well_formed a ∧ well_formed b ∧ well_formed r ∧
  operator_times (operator_plus a b r) 3%Z r
  = operator_plus (operator_times a 3%Z r) (operator_times b 3%Z r) r.
Proof.
  intros a b r.
  assert (H1 : ∀ p q : c_int, times (plus p q) 3%Z
                              = plus (times p 3%Z) (times q 3%Z))
    by (intros p q; apply int_times_distributes).
  assert (H2 : well_formed a) by reflexivity.
  assert (H3 : well_formed b) by reflexivity.
  assert (H4 : well_formed r) by reflexivity.
  exact (conj H1 (conj H2 (conj H3 (conj H4
    (scaling_distributes_over_plus a b 3%Z r r r r r
       H1 H2 H3 H4 H4 H4 H4 H4))))).
Defined.

(** ** Compound assignment, run *)

Section compound_runs.
Context {T R : Type} {Dimension : nat}.
Context `{Convertible c_int T} `{Promotes T T R}.
Context (how : assignment R T).

Local Abbreviation store := (gmap addr (vector T Dimension)).

Lemma operator_plus_assign_run (σ : store) (this other : addr)
    (a b : vector T Dimension) (result : vector R Dimension) :
  σ !! this = Some a → σ !! other = Some b →
  well_formed a → well_formed b → well_formed result →
  operator_plus_assign how this other result σ
  = Returns (this,
      <[this := Vector (assigned how
                          <$> zip_with plus (data_ a) (data_ b))]> σ).
Proof.
  intros Ha Hb Hwa Hwb Hres.
  unfold operator_plus_assign, mbind, exec_bind, deref, allocate.
  rewrite Ha, Hb. rewrite operator_plus_data by done.
  rewrite (assign_temporary_run how σ _ _ a); try done.
  - unfold well_formed in *. simpl. rewrite length_zip_with. lia.
  - by eapply fresh_not_allocated.
Qed.

Lemma operator_minus_assign_run (σ : store) (this other : addr)
    (a b : vector T Dimension) (result : vector R Dimension) :
  σ !! this = Some a → σ !! other = Some b →
  well_formed a → well_formed b → well_formed result →
  operator_minus_assign how this other result σ
  = Returns (this,
      <[this := Vector (assigned how
                          <$> zip_with minus (data_ a) (data_ b))]> σ).
Proof.
  intros Ha Hb Hwa Hwb Hres.
  unfold operator_minus_assign, mbind, exec_bind, deref, allocate.
  rewrite Ha, Hb. rewrite operator_minus_data by done.
  rewrite (assign_temporary_run how σ _ _ a); try done.
  - unfold well_formed in *. simpl. rewrite length_zip_with. lia.
  - by eapply fresh_not_allocated.
Qed.
End compound_runs.

Lemma int_plus_then_minus (xs : list c_int) :
  ∀ ys, Forall int_range xs →
        Forall2 (λ p q, int_range (p + q)) xs ys →
        zip_with minus (zip_with plus xs ys) ys = xs.
Proof.
  induction xs as [|p xs IH]; intros ys Hxs Hsum.
  - by destruct ys.
  - destruct ys as [|q ys]; [by apply Forall2_cons_nil_inv in Hsum|].
    apply Forall_cons in Hxs as [Hp Hxs].
    apply Forall2_cons in Hsum as [Hpq Hsum].
    simpl. rewrite (wrap_int_in_range (p + q)) by done.
    replace (p + q - q)%Z with p by lia.
    rewrite wrap_int_in_range by done. f_equal. by apply IH.
Qed.

(** X7.  On [int] vectors whose elements are [int] values and whose
    elementwise sums do not overflow, [a += b] followed by [a -= b], with
    [b] another object, leaves the store as it was and returns a reference
    to [a]. *)
Theorem plus_assign_then_minus_assign_restores {Dimension : nat}
    (σ : gmap addr (vector c_int Dimension)) (this other : addr)
    (a b r r' : vector c_int Dimension) :
  σ !! this = Some a → σ !! other = Some b → this ≠ other →
  well_formed a → well_formed b → well_formed r → well_formed r' →
  Forall int_range (data_ a) →
  Forall2 (λ p q, int_range (p + q)) (data_ a) (data_ b) →
  (operator_plus_assign (Defaulted eq_refl) this other r;;
   operator_minus_assign (Defaulted eq_refl) this other r') σ
  = Returns (this, σ).
Proof.
  intros Ha Hb Hne Hwa Hwb Hr Hr' Hrange Hsum.
  unfold mbind at 1, exec_bind at 1.
  rewrite (operator_plus_assign_run _ σ this other a b r) by done.
  erewrite operator_minus_assign_run;
    [|apply lookup_insert_eq|by rewrite lookup_insert_ne| |done|done].
  - rewrite insert_insert_eq. cbn [data_ assigned eq_rect].
    rewrite !list_fmap_id, int_plus_then_minus by done.
    rewrite insert_id; [done|]. by destruct a.
  - unfold well_formed in *. cbn [data_ assigned eq_rect].
    rewrite list_fmap_id, length_zip_with. lia.
Qed.

Lemma plus_assign_then_minus_assign_restores_witness :
  let σ : gmap addr vector2i :=
    {[ 1%positive := Vector [1; 2]%Z; 2%positive := Vector [10; 20]%Z ]} in
  let a : vector2i := Vector [1; 2]%Z in
  let b : vector2i := Vector [10; 20]%Z in
  let r : vector2i := Vector [7; 7]%Z in
  σ !! 1%positive = Some a ∧ σ !! 2%positive = Some b ∧
  1%positive ≠ 2%positive ∧
  well_formed a ∧ well_formed b ∧ well_formed r ∧
  Forall int_range (data_ a) ∧
  Forall2 (λ p q, int_range (p + q)) (data_ a) (data_ b) ∧
  (operator_plus_assign (Defaulted eq_refl) 1%positive 2%positive r;;
   operator_minus_assign (Defaulted eq_refl) 1%positive 2%positive r) σ
  = Returns (1%positive, σ).
Proof.
  intros σ a b r.
  assert (H1 : σ !! 1%positive = Some a) by reflexivity.
  assert (H2 : σ !! 2%positive = Some b) by reflexivity.
  assert (H3 : 1%positive ≠ 2%positive) by (intros; discriminate).
  assert (H4 : well_formed a) by reflexivity.
  assert (H5 : well_formed b) by reflexivity.
  assert (H6 : well_formed r) by reflexivity.
  assert (H7 : Forall int_range (data_ a))
    by (repeat constructor; unfold int_range; lia).
  assert (H8 : Forall2 (λ p q, int_range (p + q)) (data_ a) (data_ b))
    by (repeat constructor; unfold int_range; lia).
  exact (conj H1 (conj H2 (conj H3 (conj H4 (conj H5 (conj H6 (conj H7
    (conj H8
      (plus_assign_then_minus_assign_restores σ 1%positive 2%positive
         a b r r H1 H2 H3 H4 H5 H6 H6 H7 H8))))))))).
Defined.

(** ** The inner product *)

Section inner_product_facts.
Context {T R R2 : Type} {Dimension : nat}.
Context {zero : Convertible c_int T}.
Context {product : Promotes T T R} {sum : Promotes T R R2}.
Context {back : Convertible R2 T}.

Lemma inner_product_accumulates (xs : list T) :
  ∀ (ys : list T) (init : T),
    inner_product xs ys init
    = foldl (λ acc p, static_cast (plus acc p)) init
        (zip_with times xs ys).
Proof.
  induction xs as [|a xs IH]; intros [|b ys] init; simpl; try done.
Qed.

Lemma inner_product_swap (xs : list T) :
  (∀ p q : T, times p q = times q p) →
  ∀ (ys : list T) (init : T),
    inner_product xs ys init = inner_product ys xs init.
Proof.
  intros Htimes. induction xs as [|a xs IH]; intros [|b ys] init;
    simpl; try done.
  by rewrite Htimes, IH.
Qed.

(** X8.  [a.dot(b)] is the elements of [comp_mult(a, b)] added up from
    [T{0}], in index order, each partial sum taken back into [T]. *)
Theorem dot_accumulates_comp_mult (a b : vector T Dimension)
    (result : vector R Dimension) :
  well_formed a → well_formed b → well_formed result →
  dot a b
  = foldl (λ acc p, static_cast (plus acc p)) (static_cast 0%Z)
      (data_ (comp_mult a b result)).
Proof.
  intros Ha Hb Hres. rewrite comp_mult_data by done.
  apply inner_product_accumulates.
Qed.

(** X9.  Where [*] of the element type commutes, [a.dot(b)] is
    [b.dot(a)]. *)
Theorem dot_symmetric (a b : vector T Dimension) :
  (∀ p q : T, times p q = times q p) → dot a b = dot b a.
Proof.
  intros Htimes. unfold dot. by apply inner_product_swap.
Qed.
End inner_product_facts.

Lemma dot_accumulates_comp_mult_witness :
  let a : vector2i := Vector [2; 3]%Z in
  let b : vector2i := Vector [4; 5]%Z in
  let r : vector2i := Vector [7; 7]%Z in
  well_formed a ∧ well_formed b ∧ well_formed r ∧
  dot a b
  = foldl (λ acc p, static_cast (plus acc p)) (static_cast 0%Z)
      (data_ (comp_mult a b r)).
Proof.
  intros a b r.
  assert (H1 : well_formed a) by reflexivity.
  assert (H2 : well_formed b) by reflexivity.
  assert (H3 : well_formed r) by reflexivity.
  exact (conj H1 (conj H2 (conj H3
    (dot_accumulates_comp_mult a b r H1 H2 H3)))).
Defined.

Lemma dot_symmetric_witness :
  let a : vector2i := Vector [2; 3]%Z in
  let b : vector2i := Vector [4; 5]%Z in
  (∀ p q : c_int, times p q = times q p) ∧
  dot (R := c_int) (R2 := c_int) a b = dot (R := c_int) (R2 := c_int) b a.
Proof.
  intros a b.
  assert (H1 : ∀ p q : c_int, times p q = times q p)
    by (intros p q; simpl; f_equal; lia).
  exact (conj H1 (dot_symmetric a b H1)).
Defined.

(** [vector2i(2, 3).dot(vector2i(4, 5))] is 23, and
    [vector2d(3, 4).length()] is 5. *)
Example dot_and_length :
  dot (R := c_int) (R2 := c_int) (Vector [2; 3]%Z : vector2i)
    (Vector [4; 5]%Z) = 23%Z ∧
  member.length (R := c_double) (R2 := c_double)
    (Vector [3; 4]%float : vector2d) = 5%float.
Proof. split; vm_compute; reflexivity. Qed.

(** ** More on comparison *)

Section equality_facts.
Context {T : Type} {Dimension : nat} `{Compared T}.

Lemma equal_iff_same (xs : list T) :
  (∀ p q : T, equal_to p q = true ↔ p = q) →
  ∀ ys, length xs = length ys → (equal xs ys = true ↔ xs = ys).
Proof.
  intros Heq. induction xs as [|p xs IH]; intros [|q ys] Hlen;
    simpl in *; try done.
  destruct (equal_to p q) eqn:E.
  - apply Heq in E as ->. rewrite IH by lia. split; [by intros ->|].
    by intros [= ->].
  - split; [done|]. intros [= -> _].
    assert (equal_to q q = true) by by apply Heq. congruence.
Qed.

(** X10.  Where [==] of the element type holds exactly between identical
    values, as on the integer types, [a == b] holds exactly when the two
    vectors hold the same elements, and [a != b] exactly when they do
    not. *)
Theorem operator_eq_reflects_equality (a b : vector T Dimension) :
  (∀ p q : T, equal_to p q = true ↔ p = q) →
  well_formed a → well_formed b →
  (operator_eq a b = true ↔ a = b) ∧
  (operator_ne a b = true ↔ a ≠ b).
Proof.
  unfold well_formed. intros Heq Ha Hb.
  assert (Hiff : operator_eq a b = true ↔ a = b).
  { unfold operator_eq. rewrite (equal_iff_same _ Heq) by congruence.
    destruct a, b. simpl. split; [by intros ->|by intros [= ->]]. }
  split; [done|].
  unfold operator_ne. fold (operator_eq a b).
  rewrite negb_true_iff, <- Hiff. by destruct (operator_eq a b).
Qed.
End equality_facts.

Lemma operator_eq_reflects_equality_witness :
  let a : vector2i := Vector [1; 5]%Z in
  let b : vector2i := Vector [1; 6]%Z in
  (∀ p q : c_int, equal_to p q = true ↔ p = q) ∧
  well_formed a ∧ well_formed b ∧
  (operator_eq a b = true ↔ a = b) ∧
  (operator_ne a b = true ↔ a ≠ b).
Proof.
  intros a b.
  assert (H1 : ∀ p q : c_int, equal_to p q = true ↔ p = q)
    by (intros p q; apply Z.eqb_eq).
  assert (H2 : well_formed a) by reflexivity.
  assert (H3 : well_formed b) by reflexivity.
  exact (conj H1 (conj H2 (conj H3
    (operator_eq_reflects_equality a b H1 H2 H3)))).
Defined.

Section order_facts.
Context {T : Type} {Dimension : nat} `{Compared T}.

Variable compare : T → T → comparison.
Hypothesis less_compare : ∀ p q, less p q = true ↔ compare p q = Lt.
Hypothesis equal_compare : ∀ p q, equal_to p q = true ↔ compare p q = Eq.
Hypothesis compare_swap : ∀ p q, compare q p = CompOpp (compare p q).
Hypothesis compare_eq : ∀ p q, compare p q = Eq → p = q.
Hypothesis compare_trans :
  ∀ p q r, compare p q = Lt → compare q r = Lt → compare p r = Lt.

Lemma compare_same (p : T) : compare p p = Eq.
Proof.
  pose proof (compare_swap p p) as Hswap.
  by destruct (compare p p).
Qed.

Lemma lexicographic_same (xs : list T) : lexicographic compare xs xs = Eq.
Proof.
  induction xs as [|p xs IH]; simpl; [done|]. by rewrite compare_same.
Qed.

Lemma lexicographic_trans (xs : list T) :
  ∀ ys zs,
    lexicographic compare xs ys = Lt → lexicographic compare ys zs = Lt →
    lexicographic compare xs zs = Lt.
Proof.
  induction xs as [|p xs IH]; intros [|q ys] [|r zs]; simpl; try done.
  destruct (compare p q) eqn:Epq; try done;
    destruct (compare q r) eqn:Eqr; try done; intros Hxy Hyz.
  - apply compare_eq in Epq as ->. rewrite Eqr. by apply (IH ys).
  - apply compare_eq in Epq as ->. by rewrite Eqr.
  - apply compare_eq in Eqr as <-. by rewrite Epq.
  - by rewrite (compare_trans p q r).
Qed.

(** X11.  Over a totally ordered element type [<] on vectors is a strict
    total order: no vector is below itself, [a < b] and [b < c] give
    [a < c], exactly one of [a < b], [a == b], [a > b] holds, and [<=] and
    [>=] are [<] or [==] and [>] or [==]. *)
Theorem operator_lt_strict_total_order (a b c : vector T Dimension) :
  well_formed a → well_formed b →
  operator_lt a a = false ∧
  (operator_lt a b = true → operator_lt b c = true →
   operator_lt a c = true) ∧
  (operator_lt a b, operator_eq a b, operator_gt a b)
    ∈ [(true, false, false); (false, true, false); (false, false, true)] ∧
  operator_le a b = operator_lt a b || operator_eq a b ∧
  operator_ge a b = operator_gt a b || operator_eq a b.
Proof.
  unfold well_formed. intros Ha Hb.
  unfold operator_lt, operator_eq, operator_gt, operator_le, operator_ge.
  rewrite !(lexicographical_compare_lt compare less_compare compare_swap).
  rewrite (lexicographic_swap compare compare_swap (data_ a) (data_ b)).
  rewrite (equal_eq compare equal_compare) by congruence.
  rewrite lexicographic_same.
  split; [done|]. split.
  - destruct (lexicographic compare (data_ a) (data_ b)) eqn:Eab;
      try done.
    destruct (lexicographic compare (data_ b) (data_ c)) eqn:Ebc;
      try done.
    by rewrite (lexicographic_trans _ _ _ Eab Ebc).
  - destruct (lexicographic compare (data_ a) (data_ b)); simpl;
      (split;
         [repeat first [apply list_elem_of_here|apply list_elem_of_further]
         |done]).
Qed.
End order_facts.

Lemma operator_lt_strict_total_order_witness :
  let a : vector2i := Vector [1; 5]%Z in
  let b : vector2i := Vector [1; 6]%Z in
  let c : vector2i := Vector [2; 0]%Z in
  well_formed a ∧ well_formed b ∧
  operator_lt a a = false ∧
  (operator_lt a b = true → operator_lt b c = true →
   operator_lt a c = true) ∧
  (operator_lt a b, operator_eq a b, operator_gt a b)
    ∈ [(true, false, false); (false, true, false); (false, false, true)] ∧
  operator_le a b = operator_lt a b || operator_eq a b ∧
  operator_ge a b = operator_gt a b || operator_eq a b.
Proof.
  intros a b c.
  assert (Ha : well_formed a) by reflexivity.
  assert (Hb : well_formed b) by reflexivity.
  exact (conj Ha (conj Hb
    (operator_lt_strict_total_order Z.compare int_less_compare
       int_equal_compare (λ p q, Z.compare_antisym p q)
       (λ p q, proj1 (Z.compare_eq_iff p q))
       (λ p q r Hpq Hqr,
          proj2 (Z.compare_lt_iff p r)
            (Z.lt_trans p q r (proj1 (Z.compare_lt_iff p q) Hpq)
               (proj1 (Z.compare_lt_iff q r) Hqr)))
       a b c Ha Hb))).
Defined.

(** [<] of [double] never holds between a value and itself. *)
Lemma double_less_irreflexive (p : c_double) : less p p = false.
Proof.
  simpl. rewrite ltb_spec. unfold SFltb, SFcompare.
  destruct (Prim2SF p) as [s|s| |s m e].
  - done.
  - by destruct s.
  - done.
  - rewrite Z.compare_refl.
    change (PosDef.Pos.compare_cont Eq m m) with (Pos.compare m m).
    rewrite Pos.compare_refl. by destruct s.
Qed.

Lemma lexicographical_compare_double_same (xs : list c_double) :
  lexicographical_compare xs xs = false.
Proof.
  induction xs as [|p xs IH]; simpl; [done|].
  fold (less p p). by rewrite double_less_irreflexive.
Qed.

Lemma equal_with_nan (xs : list c_double) :
  nan ∈ xs → equal xs xs = false.
Proof.
  induction xs as [|p xs IH]; intros Hnan.
  - by apply not_elem_of_nil in Hnan.
  - cbn [equal]. destruct (equal_to p p) eqn:Ep; [|done].
    apply elem_of_cons in Hnan as [<-|Hnan]; [done|]. by apply IH.
Qed.

(** X13.  A [double] vector that holds a NaN is not [==] to itself and is
    [!=] to itself, and is neither [<] nor [>] itself. *)
Theorem nan_vector_compared_with_itself {Dimension : nat}
    (v : vector c_double Dimension) :
  nan ∈ data_ v →
  operator_eq v v = false ∧ operator_ne v v = true ∧
  operator_lt v v = false ∧ operator_gt v v = false.
Proof.
  intros Hnan.
  unfold operator_eq, operator_ne, operator_lt, operator_gt.
  rewrite lexicographical_compare_double_same.
  by rewrite (equal_with_nan _ Hnan).
Qed.

Lemma nan_vector_compared_with_itself_witness :
  let v : vector2d := Vector [1%float; nan] in
  nan ∈ data_ v ∧
  operator_eq v v = false ∧ operator_ne v v = true ∧
  operator_lt v v = false ∧ operator_gt v v = false.
Proof.
  intros v.
  assert (H1 : nan ∈ data_ v)
    by (apply list_elem_of_further, list_elem_of_here).
  exact (conj H1 (nan_vector_compared_with_itself v H1)).
Defined.

(** ** More on the comma initializer *)

Section comma_initializer_more.
Context {T : Type} {Dimension : nat}.

Local Abbreviation store := (gmap addr (vector T Dimension)).

Lemma taken_after_scalars {T2 : Type} {conv : Convertible T2 T}
    (elems : list T2) (rest : list (operand T)) :
  taken_after (Dimension := Dimension)
    (((λ elem, Scalar elem) <$> elems) ++ rest)
  = (static_cast <$> elems) ++ taken_after (Dimension := Dimension) rest.
Proof.
  induction elems as [|elem elems IH]; [done|].
  rewrite !fmap_cons. cbn [app taken_after accepted supplied].
  by rewrite IH.
Qed.

Lemma taken_after_splice {T2 : Type} {Dimension2 : nat}
    {conv : Convertible T2 T} (vals1 vals2 : list (operand T))
    (other : vector T2 Dimension2) :
  Dimension2 ≤ Dimension →
  taken_after (Dimension := Dimension) (vals1 ++ Vec other :: vals2)
  = taken_after (Dimension := Dimension)
      (vals1 ++ ((λ elem, Scalar elem) <$> data_ other) ++ vals2).
Proof.
  intros Hle. induction vals1 as [|val vals1 IH].
  - cbn [app taken_after accepted supplied].
    rewrite bool_decide_eq_true_2 by done.
    by rewrite taken_after_scalars.
  - cbn [app taken_after]. by rewrite IH.
Qed.

(** X14.  In a statement through [operator<<] by reference, a vector operand
    of no more than [Dimension] elements that stands after the first
    operand stands for its elements written out as scalars in its place: the
    two statements end alike. *)
Theorem vector_operand_is_its_elements {T2 : Type} {Dimension2 : nat}
    {conv : Convertible T2 T} (σ : store) (vec : addr)
    (v : vector T Dimension) (first : operand T)
    (vals1 vals2 : list (operand T)) (other : vector T2 Dimension2) :
  σ !! vec = Some v → well_formed v → Dimension2 ≤ Dimension →
  build vec first (vals1 ++ Vec other :: vals2) σ
  = build vec first
      (vals1 ++ ((λ elem, Scalar elem) <$> data_ other) ++ vals2) σ.
Proof.
  intros Hv Hwf Hle.
  rewrite !(build_run vec first _ σ v) by done. cbv zeta.
  by rewrite (taken_after_splice vals1 vals2 other Hle).
Qed.

(** X16.  A statement that starts with an rvalue vector of no more than
    [Dimension] elements, and so through the by-value overload, and goes on
    with a scalar: where the vector has [Dimension] elements the append of
    the scalar fails its assertion; where it has fewer the append passes
    the assertion and writes through the initializer's reference to the
    parameter of [operator<<], an object that is gone since [operator<<]
    returned. *)
Theorem by_value_build_with_a_later_scalar {T2 T3 : Type}
    {Dimension2 : nat} {conv : Convertible T2 T} {conv3 : Convertible T3 T}
    (σ : store) (arg : addr) (v : vector T Dimension)
    (other : vector T2 Dimension2) (val : T3) (vals : list (operand T)) :
  σ !! arg = Some v → well_formed v →
  well_formed other → Dimension2 ≤ Dimension →
  build_by_value arg other (Scalar val :: vals) σ
  = if decide (Dimension2 < Dimension) then Undefined else AssertionFailed.
Proof.
  intros Hv Hwf Hother Hle.
  rewrite (build_by_value_run arg other _ σ v) by done. cbv zeta.
  unfold taken_first. cbn [accepted taken_after supplied app].
  rewrite bool_decide_eq_true_2 by done.
  unfold well_formed in Hother. rewrite length_fmap, Hother.
  by rewrite decide_True by done.
Qed.
End comma_initializer_more.

Lemma vector_operand_is_its_elements_witness :
  let σ : gmap addr vector3d := {[ 1%positive := Vector [7; 8; 9]%float ]} in
  let v : vector3d := Vector [7; 8; 9]%float in
  let other : vector2d := Vector [4; 5]%float in
  σ !! 1%positive = Some v ∧ well_formed v ∧ 2 ≤ 3 ∧
  build 1%positive (Scalar 6%Z) ([] ++ Vec other :: []) σ
  = build 1%positive (Scalar 6%Z)
      ([] ++ ((λ elem, Scalar elem) <$> data_ other) ++ []) σ.
Proof.
  intros σ v other.
  assert (H1 : σ !! 1%positive = Some v) by reflexivity.
  assert (H2 : well_formed v) by reflexivity.
  assert (H3 : 2 ≤ 3) by lia.
  exact (conj H1 (conj H2 (conj H3
    (vector_operand_is_its_elements σ 1%positive v (Scalar 6%Z) [] []
       other H1 H2 H3)))).
Defined.

Lemma by_value_build_with_a_later_scalar_witness :
  let σ : gmap addr vector3d := {[ 1%positive := Vector [7; 8; 9]%float ]} in
  let v : vector3d := Vector [7; 8; 9]%float in
  let other : vector2d := Vector [4; 5]%float in
  σ !! 1%positive = Some v ∧ well_formed v ∧
  well_formed other ∧ 2 ≤ 3 ∧
  build_by_value 1%positive other [Scalar 6%Z] σ
  = if decide (2 < 3) then Undefined else AssertionFailed.
Proof.
  intros σ v other.
  assert (H1 : σ !! 1%positive = Some v) by reflexivity.
  assert (H2 : well_formed v) by reflexivity.
  assert (H3 : well_formed other) by reflexivity.
  assert (H4 : 2 ≤ 3) by lia.
  exact (conj H1 (conj H2 (conj H3 (conj H4
    (by_value_build_with_a_later_scalar σ 1%positive v other 6%Z []
       H1 H2 H3 H4))))).
Defined.

(** ** Conversions in a row *)

Lemma vector_from_run {T : Type} {Dimension : nat} `{Convertible c_int T}
    {T2 : Type} {Dimension2 : nat} {conv : Convertible T2 T}
    (σ : gmap addr (vector T Dimension)) (this other_addr : addr)
    (indeterminate : vector T Dimension) (other : vector T2 Dimension2) :
  well_formed indeterminate → well_formed other →
  Dimension2 ≤ Dimension → this ≠ other_addr →
  vector_from this indeterminate other_addr other σ
  = Returns ((),
      <[this := Vector ((static_cast <$> data_ other)
                          ++ replicate (Dimension - Dimension2)
                               (static_cast 0%Z))]> σ).
Proof.
  intros Hind Hother Hle Hne.
  unfold vector_from, mbind, exec_bind, write.
  rewrite (assign_from_run _ this other_addr indeterminate other);
    try done; [|by rewrite lookup_insert_eq].
  by rewrite insert_insert_eq.
Qed.

Section conversions_in_a_row.
Context {T2 T3 T4 : Type} {Dimension2 Dimension3 Dimension4 : nat}.
Context {zero3 : Convertible c_int T3} {zero4 : Convertible c_int T4}.
Context {conv23 : Convertible T2 T3} {conv34 : Convertible T3 T4}.
Context {conv24 : Convertible T2 T4}.

(** X12.  Where converting [T2] to [T3] and on to [T4] is converting [T2]
    to [T4], and the zero of [T3] converts to the zero of [T4], constructing
    a [vector<T4, Dimension4>] from the [vector<T3, Dimension3>] constructed
    from a [vector<T2, Dimension2>] gives what constructing it from the
    latter directly gives. *)
Theorem widening_twice_is_widening_once
    (σ3 : gmap addr (vector T3 Dimension3))
    (σ4 : gmap addr (vector T4 Dimension4))
    (source middle target : addr) (other : vector T2 Dimension2)
    (indeterminate3 : vector T3 Dimension3)
    (indeterminate4 : vector T4 Dimension4) :
  (∀ e : T2, static_cast (static_cast e : T3) = (static_cast e : T4)) →
  static_cast (static_cast 0%Z : T3) = (static_cast 0%Z : T4) →
  Dimension2 ≤ Dimension3 → Dimension3 ≤ Dimension4 →
  well_formed other →
  well_formed indeterminate3 → well_formed indeterminate4 →
  middle ≠ source → target ≠ middle → target ≠ source →
  ∃ v3 : vector T3 Dimension3,
    vector_from middle indeterminate3 source other σ3
      = Returns ((), <[middle := v3]> σ3) ∧
    well_formed v3 ∧
    vector_from target indeterminate4 middle v3 σ4
      = vector_from target indeterminate4 source other σ4.
Proof.
  intros Hconv Hzero H23 H34 Hother Hind3 Hind4 Hms Htm Hts.
  eexists. split; [by apply vector_from_run|]. split.
  - unfold well_formed in *. simpl.
    rewrite length_app, length_fmap, length_replicate. lia.
  - rewrite !vector_from_run; try done.
    + do 4 f_equal. cbn [data_].
      rewrite fmap_app, fmap_replicate, <- list_fmap_compose, Hzero.
      rewrite <- app_assoc, <- replicate_add. f_equal.
      * apply list_fmap_ext. intros i e _. apply Hconv.
      * f_equal. lia.
    + lia.
    + unfold well_formed in *. simpl.
      rewrite length_app, length_fmap, length_replicate. lia.
Qed.
End conversions_in_a_row.

Lemma widening_twice_is_widening_once_witness :
  let σ3 : gmap addr vector3d := ∅ in
  let σ4 : gmap addr (vector c_double 4) := ∅ in
  let other : vector2i := Vector [1; 2]%Z in
  let indeterminate3 : vector3d := Vector [7; 8; 9]%float in
  let indeterminate4 : vector c_double 4 := Vector [7; 8; 9; 6]%float in
  (∀ e : c_int, static_cast (static_cast e : c_double)
                = (static_cast e : c_double)) ∧
  static_cast (static_cast 0%Z : c_double) = (static_cast 0%Z : c_double) ∧
  2 ≤ 3 ∧ 3 ≤ 4 ∧
  well_formed other ∧
  well_formed indeterminate3 ∧ well_formed indeterminate4 ∧
  2%positive ≠ 1%positive ∧ 3%positive ≠ 2%positive ∧
  3%positive ≠ 1%positive ∧
  ∃ v3 : vector3d,
    vector_from 2%positive indeterminate3 1%positive other σ3
      = Returns ((), <[2%positive := v3]> σ3) ∧
    well_formed v3 ∧
    vector_from 3%positive indeterminate4 2%positive v3 σ4
      = vector_from 3%positive indeterminate4 1%positive other σ4.
Proof.
  intros σ3 σ4 other indeterminate3 indeterminate4.
  assert (H1 : ∀ e : c_int, static_cast (static_cast e : c_double)
                            = (static_cast e : c_double))
    by reflexivity.
  assert (H2 : static_cast (static_cast 0%Z : c_double)
               = (static_cast 0%Z : c_double)) by reflexivity.
  assert (H3 : 2 ≤ 3) by lia.
  assert (H4 : 3 ≤ 4) by lia.
  assert (H5 : well_formed other) by reflexivity.
  assert (H6 : well_formed indeterminate3) by reflexivity.
  assert (H7 : well_formed indeterminate4) by reflexivity.
  assert (H8 : 2%positive ≠ 1%positive) by (intros; discriminate).
  assert (H9 : 3%positive ≠ 2%positive) by (intros; discriminate).
  assert (H10 : 3%positive ≠ 1%positive) by (intros; discriminate).
  exact (conj H1 (conj H2 (conj H3 (conj H4 (conj H5 (conj H6 (conj H7
    (conj H8 (conj H9 (conj H10
      (widening_twice_is_widening_once σ3 σ4 1%positive 2%positive
         3%positive other indeterminate3 indeterminate4
         H1 H2 H3 H4 H5 H6 H7 H8 H9 H10))))))))))).
Defined.
